(** * Chunked upload server (server.js): a shallow embedding and its properties

    The development follows [src/server.js]: the Express handlers
    [/check-file], [/verify], [/upload] and [/merge] and the helper
    [calculateFileHash] become functions over an explicit file-system
    state.

    Modelling conventions.
    - Request body fields are JavaScript values ([JsValue]); truthiness and
      strict equality are written out.  A number in a body is an integer.
    - The two directories [uploads/] and [chunks/] are finite maps.  File and
      directory names are single path components that the file system
      takes ([plain_name]: no separator, not [.] or [..], at most 255
      bytes), so that [path.join dir name] names the entry [name] of [dir]
      and opening or writing it does not fail.  A statement that would not
      hold of the server for other names carries [plain_name] as a
      hypothesis.
    - [fs.promises.readdir] lists the names of a directory in ascending
      byte order ([readdir_sorted]).  The handlers take the listing function
      as a parameter; what holds for every listing order is stated for every
      one.
    - A chunk payload reaches the upload handler only below the size limit
      of the multipart parser ([below_limit]).
    - Strings are byte strings; a chunk key, a file name and a hash are
      ASCII.
    - A JavaScript number that [parseInt] can return is an integer-valued
      double: [number] keeps its value in [Z] and the rounding to 53
      significant bits is written out ([to_number]).
    - Creation times ([stats.birthtime]) and console output are left out.
    - Disk failures other than a missing entry are not modelled.
    - [list_files] is the handler of GET /files.
    - [merge] is the merge handler run without interruption; [task_step]
      is the same handler cut at its awaits, for calls that overlap
      ([merge_runs_alone] relates the two). *)

From Stdlib Require Import ZArith Lia Ascii String.
From Stdlib.Strings Require Import Byte.
From stdpp Require Import base option list gmap strings sorting.

Local Open Scope string_scope.
Local Open Scope Z_scope.
Local Open Scope list_scope.

Abbreviation bytes := (list byte).

(** ** JavaScript values found in a parsed request body *)

Inductive JsValue :=
| JUndefined
| JNull
| JBool (b : bool)
| JNumber (n : Z)
| JString (s : string)
| JObject.

(** [!!v] *)
Definition truthy (v : JsValue) : bool :=
  match v with
  | JUndefined | JNull => false
  | JBool b => b
  | JNumber n => negb (n =? 0)
  | JString s => negb (String.eqb s "")
  | JObject => true
  end.

(** [n === v] for a number [n] *)
Definition strict_eq_number (n : Z) (v : JsValue) : bool :=
  match v with
  | JNumber m => n =? m
  | _ => false
  end.

(** [path.join(dir, v)] throws a TypeError unless [v] is a string. *)
Definition path_component (v : JsValue) : option string :=
  match v with
  | JString s => Some s
  | _ => None
  end.

(** ** Numbers returned by [parseInt] *)

Inductive number :=
| NaN
| Num (z : Z)
| PosInf
| NegInf.

(** Round a non-negative integer to the nearest integer with at most 53
    significant bits, ties to even. *)
Definition round_mag (n : Z) : Z :=
  if n <? 2 ^ 53 then n
  else
    let e := Z.log2 n - 52 in
    let q := Z.shiftr n e in
    let r := Z.land n (Z.ones e) in
    let half := Z.shiftl 1 (e - 1) in
    let q' := if r <? half then q
              else if half <? r then q + 1
              else if Z.even q then q else q + 1 in
    Z.shiftl q' e.

(** The Number value of a mathematical integer. *)
Definition to_number (z : Z) : number :=
  let m := round_mag (Z.abs z) in
  if 2 ^ 1024 <=? m then (if z <? 0 then NegInf else PosInf)
  else Num (Z.sgn z * m).

(** [x - y] *)
Definition js_sub (x y : number) : number :=
  match x, y with
  | NaN, _ | _, NaN => NaN
  | PosInf, PosInf | NegInf, NegInf => NaN
  | PosInf, _ => PosInf
  | NegInf, _ => NegInf
  | Num _, PosInf => NegInf
  | Num _, NegInf => PosInf
  | Num a, Num b => to_number (a - b)
  end.

Definition char_code (c : ascii) : Z := Z.of_N (N_of_ascii c).

Definition is_white_space (c : ascii) : bool :=
  let n := char_code c in
  ((9 <=? n) && (n <=? 13)) || (n =? 32).

Fixpoint trim_start (s : string) : string :=
  match s with
  | String c s' => if is_white_space c then trim_start s' else s
  | EmptyString => EmptyString
  end.

Definition is_digit (c : ascii) : bool :=
  (48 <=? char_code c) && (char_code c <=? 57).

(** Value of a character as a digit of a radix up to 36. *)
Definition digit_value (c : ascii) : option Z :=
  let n := char_code c in
  if (48 <=? n) && (n <=? 57) then Some (n - 48)
  else if (97 <=? n) && (n <=? 122) then Some (n - 97 + 10)
  else if (65 <=? n) && (n <=? 90) then Some (n - 65 + 10)
  else None.

(** The longest prefix of radix-[R] digits, as an integer; [acc] is [None]
    until a digit has been read. *)
Fixpoint read_digits (R : Z) (s : string) (acc : option Z) : option Z :=
  match s with
  | EmptyString => acc
  | String c s' =>
      match digit_value c with
      | Some d =>
          if d <? R then read_digits R s' (Some (R * default 0 acc + d))
          else acc
      | None => acc
      end
  end.

Definition strip_sign (s : string) : Z * string :=
  match s with
  | String c s' =>
      if Ascii.eqb c "-" then (-1, s')
      else if Ascii.eqb c "+" then (1, s')
      else (1, s)
  | EmptyString => (1, s)
  end.

(** A leading [0x] or [0X] selects radix 16, else the radix is 10. *)
Definition strip_radix_prefix (s : string) : Z * string :=
  match s with
  | String c0 (String c1 s') =>
      if Ascii.eqb c0 "0" && (Ascii.eqb c1 "x" || Ascii.eqb c1 "X") then (16, s')
      else (10, s)
  | _ => (10, s)
  end.

(** [parseInt(input)] with no radix argument.  (For more than 20 decimal
    digits the language lets an engine approximate; V8 rounds correctly, as
    here.) *)
Definition parseInt (input : string) : number :=
  let '(sign, s) := strip_sign (trim_start input) in
  let '(R, s) := strip_radix_prefix s in
  match read_digits R s None with
  | None => NaN
  | Some m => to_number (sign * m)
  end.

(** [key.split('-')[0]] *)
Fixpoint leading_segment (key : string) : string :=
  match key with
  | EmptyString => EmptyString
  | String c key' =>
      if Ascii.eqb c "-" then EmptyString else String c (leading_segment key')
  end.

(** ** [Array.prototype.sort] with a comparator

    The comparator's result [v] places [x] after [y] when [v > 0]; a [NaN]
    counts as [+0].  The sort is stable.  For a consistent comparator the
    result is determined by these two facts, and [array_sort] computes it
    by insertion.  (A comparator that is not consistent, such as the merge
    handler's on keys with and without a numeric index side by side, leaves
    the order to the engine; the statements on the order of the merge do not
    rest on [array_sort] there.) *)

Definition is_positive (v : number) : bool :=
  match v with
  | Num z => 0 <? z
  | PosInf => true
  | _ => false
  end.

Section ArraySort.
Context {A : Type} (comparefn : A -> A -> number).

Fixpoint sort_insert (x : A) (l : list A) : list A :=
  match l with
  | [] => [x]
  | y :: l' =>
      if is_positive (comparefn x y) then y :: sort_insert x l'
      else x :: l
  end.

Definition array_sort (l : list A) : list A := foldr sort_insert [] l.

End ArraySort.

(** The comparator of the merge handler. *)
Definition chunk_index (key : string) : number := parseInt (leading_segment key).

Definition compare_chunks (a b : string) : number :=
  js_sub (chunk_index a) (chunk_index b).

Definition sort_chunks (keys : list string) : list string :=
  array_sort compare_chunks keys.

(** ** [crypto.createHash('md5')]: the MD5 digest, in lower-case hex *)

Module MD5.

Definition shifts : list Z :=
  [7; 12; 17; 22; 7; 12; 17; 22; 7; 12; 17; 22; 7; 12; 17; 22;
   5; 9; 14; 20; 5; 9; 14; 20; 5; 9; 14; 20; 5; 9; 14; 20;
   4; 11; 16; 23; 4; 11; 16; 23; 4; 11; 16; 23; 4; 11; 16; 23;
   6; 10; 15; 21; 6; 10; 15; 21; 6; 10; 15; 21; 6; 10; 15; 21].

Definition sines : list Z :=
  [0xd76aa478; 0xe8c7b756; 0x242070db; 0xc1bdceee;
   0xf57c0faf; 0x4787c62a; 0xa8304613; 0xfd469501;
   0x698098d8; 0x8b44f7af; 0xffff5bb1; 0x895cd7be;
   0x6b901122; 0xfd987193; 0xa679438e; 0x49b40821;
   0xf61e2562; 0xc040b340; 0x265e5a51; 0xe9b6c7aa;
   0xd62f105d; 0x02441453; 0xd8a1e681; 0xe7d3fbc8;
   0x21e1cde6; 0xc33707d6; 0xf4d50d87; 0x455a14ed;
   0xa9e3e905; 0xfcefa3f8; 0x676f02d9; 0x8d2a4c8a;
   0xfffa3942; 0x8771f681; 0x6d9d6122; 0xfde5380c;
   0xa4beea44; 0x4bdecfa9; 0xf6bb4b60; 0xbebfbc70;
   0x289b7ec6; 0xeaa127fa; 0xd4ef3085; 0x04881d05;
   0xd9d4d039; 0xe6db99e5; 0x1fa27cf8; 0xc4ac5665;
   0xf4292244; 0x432aff97; 0xab9423a7; 0xfc93a039;
   0x655b59c3; 0x8f0ccc92; 0xffeff47d; 0x85845dd1;
   0x6fa87e4f; 0xfe2ce6e0; 0xa3014314; 0x4e0811a1;
   0xf7537e82; 0xbd3af235; 0x2ad7d2bb; 0xeb86d391].

Definition add32 (a b : Z) : Z := (a + b) mod 2 ^ 32.

Definition not32 (a : Z) : Z := Z.lxor a 0xffffffff.

Definition rotl32 (x c : Z) : Z :=
  Z.lor (Z.shiftl x c mod 2 ^ 32) (Z.shiftr x (32 - c)).

(** Little-endian bytes of a word, and back. *)
Fixpoint le_bytes (n : nat) (w : Z) : list Z :=
  match n with
  | O => []
  | S n' => (w mod 256) :: le_bytes n' (w / 256)
  end.

Definition le_word (bs : list Z) : Z :=
  foldr (fun b acc => b + 256 * acc) 0 bs.

Fixpoint le_words (n : nat) (bs : list Z) : list Z :=
  match n with
  | O => []
  | S n' => le_word (take 4 bs) :: le_words n' (drop 4 bs)
  end.

(** Message, then 0x80, zeros up to 56 modulo 64, and the bit length on 64
    bits. *)
Definition padding (bs : list Z) : list Z :=
  let len := Z.of_nat (length bs) in
  let zeros := Z.to_nat ((55 - len) mod 64) in
  bs ++ [0x80] ++ replicate zeros 0 ++ le_bytes 8 ((8 * len) mod 2 ^ 64).

Definition state : Type := Z * Z * Z * Z.

Definition step (M : list Z) (st : state) (i : nat) : state :=
  let '(a, b, c, d) := st in
  let iz := Z.of_nat i in
  let '(f, g) :=
    if iz <? 16 then (Z.lor (Z.land b c) (Z.land (not32 b) d), iz)
    else if iz <? 32 then
      (Z.lor (Z.land d b) (Z.land (not32 d) c), (5 * iz + 1) mod 16)
    else if iz <? 48 then (Z.lxor b (Z.lxor c d), (3 * iz + 5) mod 16)
    else (Z.lxor c (Z.lor b (not32 d)), (7 * iz) mod 16) in
  let f' := add32 (add32 (add32 f a) (sines !!! i)) (M !!! Z.to_nat g) in
  (d, add32 b (rotl32 f' (shifts !!! i)), b, c).

Definition block (st : state) (blk : list Z) : state :=
  let M := le_words 16 blk in
  let '(a, b, c, d) := st in
  let '(a', b', c', d') := foldl (step M) st (seq 0 64) in
  (add32 a a', add32 b b', add32 c c', add32 d d').

Fixpoint blocks (n : nat) (st : state) (bs : list Z) : state :=
  match n with
  | O => st
  | S n' => blocks n' (block st (take 64 bs)) (drop 64 bs)
  end.

Definition init : state := (0x67452301, 0xefcdab89, 0x98badcfe, 0x10325476).

Definition digest_bytes (data : bytes) : list Z :=
  let padded := padding (map (fun b => Z.of_N (Byte.to_N b)) data) in
  let '(a, b, c, d) := blocks (length padded / 64)%nat init padded in
  le_bytes 4 a ++ le_bytes 4 b ++ le_bytes 4 c ++ le_bytes 4 d.

Definition hex_digit (n : Z) : ascii :=
  ascii_of_N (Z.to_N (if n <? 10 then 48 + n else 87 + n)).

Definition hex (bs : list Z) : string :=
  foldr (fun b acc => String (hex_digit (b / 16)) (String (hex_digit (b mod 16)) acc))
        EmptyString bs.

Definition hexdigest (data : bytes) : string := hex (digest_bytes data).

End MD5.

(** ** Responses *)

(** What a [catch] block may receive. *)
Inductive Error :=
| TypeError                  (* a path argument that is not a string, a
                                method or property read off a non-object *)
| ENOENT                     (* no such file or directory *)
| ENOTEMPTY                  (* rmdir of a directory with entries *)
| ReadError (msg : string).  (* an error event of a read stream *)

(** A message is a literal, or a literal followed by [error.message]. *)
Inductive Message :=
| Text (s : string)
| TextError (s : string) (e : Error).

Record FileInfo := { file_name : string; file_size : Z }.

Record Details := { expected : string; actual : string }.

Record Response := {
  status : Z;
  code : Z;
  message : Message;
  exists_ : option bool;
  verified : option bool;
  details : option Details;
  file : option FileInfo;
  url : option string
}.

(** [res.status(st).json({code, message})] *)
Definition json (st c : Z) (msg : Message) : Response :=
  {| status := st; code := c; message := msg; exists_ := None;
     verified := None; details := None; file := None; url := None |}.

(** ** The file system: [uploads/] and [chunks/<fileHash>/] *)

Record FS := {
  uploads : gmap string bytes;
  chunks : gmap string (gmap string bytes)
}.

Record Body := {
  fileHash : JsValue;
  fileName : JsValue;
  size : JsValue;
  hash : JsValue
}.

Definition missing_params (b : Body) : bool :=
  negb (truthy (fileHash b)) || negb (truthy (fileName b)).

(** ** POST /check-file *)

Definition not_exists : Response :=
  {| status := 200; code := 0; message := Text "文件不存在";
     exists_ := Some false; verified := None; details := None;
     file := None; url := None |}.

Definition check_file (b : Body) (fs : FS) : Response :=
  if missing_params b then
    json 400 1 (Text "缺少必要参数 fileHash 或 fileName")
  else
    match path_component (fileName b) with
    | None => json 500 1 (TextError "检查文件失败: " TypeError)
    | Some name =>
        match uploads fs !! name with
        | Some content =>
            let stats_size := Z.of_nat (length content) in
            if truthy (size b) && strict_eq_number stats_size (size b) then
              {| status := 200; code := 0; message := Text "文件已存在";
                 exists_ := Some true; verified := None; details := None;
                 file := Some {| file_name := name; file_size := stats_size |};
                 url := None |}
            else not_exists
        | None => not_exists
        end
    end.

(** ** calculateFileHash *)

(** Events of the read stream, in the order they are emitted. *)
Inductive StreamEvent :=
| OnData (data : bytes)
| OnEnd
| OnError (e : Error).

Inductive Promise (A : Type) :=
| Resolved (a : A)
| Rejected (e : Error)
| Pending.
Arguments Resolved {A} a.
Arguments Rejected {A} e.
Arguments Pending {A}.

(** [updated] is what [hash.update] has received so far; the promise is
    settled by the first [end] or [error] event. *)
Fixpoint hash_events (updated : bytes) (events : list StreamEvent) : Promise string :=
  match events with
  | [] => Pending
  | OnData data :: events' => hash_events (updated ++ data) events'
  | OnEnd :: _ => Resolved (MD5.hexdigest updated)
  | OnError e :: _ => Rejected e
  end.

Definition calculateFileHash (events : list StreamEvent) : Promise string :=
  hash_events [] events.

(** ** POST /verify *)

Fixpoint skip_digits (s : string) : string :=
  match s with
  | String c s' => if is_digit c then skip_digits s' else s
  | EmptyString => EmptyString
  end.

(** [s] without the prefix [p], when it starts with it. *)
Fixpoint strip_prefix (p s : string) : option string :=
  match p, s with
  | EmptyString, _ => Some s
  | String a p', String c s' => if Ascii.eqb a c then strip_prefix p' s' else None
  | String _ _, EmptyString => None
  end.

(** [s.replace(/^temp-\d+-/, '')] *)
Definition strip_temp_prefix (s : string) : string :=
  match strip_prefix "temp-" s with
  | Some (String c rest) =>
      if is_digit c then
        match skip_digits rest with
        | String c' rest' => if Ascii.eqb c' "-" then rest' else s
        | EmptyString => s
        end
      else s
  | _ => s
  end.

Definition verify_failed (e : Error) : Response :=
  {| status := 500; code := 1; message := TextError "文件校验失败: " e;
     exists_ := None; verified := Some false; details := None;
     file := None; url := None |}.

Definition verify_passed : Response :=
  {| status := 200; code := 0; message := Text "文件完整性校验通过";
     exists_ := None; verified := Some true; details := None;
     file := None; url := None |}.

Definition verify_mismatch (providedHash actualHash : string) : Response :=
  {| status := 200; code := 0; message := Text "文件完整性校验失败";
     exists_ := None; verified := Some false;
     details := Some {| expected := providedHash; actual := actualHash |};
     file := None; url := None |}.

(** [events] is what the read stream of the artifact emits; no response is
    sent while the digest promise is pending. *)
Definition verify (events : list StreamEvent) (b : Body) (fs : FS) : option Response :=
  if missing_params b then
    Some (json 400 1 (Text "缺少必要参数 fileHash 或 fileName"))
  else
    match path_component (fileName b) with
    | None => Some (verify_failed TypeError)
    | Some name =>
        match uploads fs !! name with
        | None =>
            Some {| status := 404; code := 1; message := Text "文件不存在";
                    exists_ := None; verified := Some false; details := None;
                    file := None; url := None |}
        | Some _ =>
            match calculateFileHash events with
            | Pending => None
            | Rejected e => Some (verify_failed e)
            | Resolved actualHash =>
                match fileHash b with
                | JString fh =>
                    let providedHash := strip_temp_prefix fh in
                    if String.eqb actualHash providedHash || String.eqb fh actualHash then
                      Some verify_passed
                    else
                      Some (verify_mismatch providedHash actualHash)
                | _ => Some (verify_failed TypeError)
                end
            end
        end
    end.

(** ** POST /upload *)

(** The body fields and [req.file.buffer] as [upload.single('chunk')] leaves
    them; [req.file] is undefined when the form has no [chunk] part. *)
Record UploadRequest := {
  body : Body;
  req_file : option bytes
}.

Definition upload_failed (e : Error) : Response :=
  json 500 1 (TextError "分片上传失败: " e).

(** [if (!fs.existsSync(chunkDir)) fs.mkdirSync(chunkDir, {recursive: true})];
    [fh] names one entry of [chunks/] (see [plain_name]). *)
Definition ensure_chunk_dir (fh : string) (fs : FS) : FS :=
  match chunks fs !! fh with
  | Some _ => fs
  | None => {| uploads := uploads fs; chunks := <[fh := ∅]> (chunks fs) |}
  end.

(** [fs.writeFileSync(path.join(chunkDir, key), buffer)]; [key] names one
    entry of the chunk directory, and the write does not fail. *)
Definition write_chunk (fh key : string) (buffer : bytes) (fs : FS) : FS :=
  {| uploads := uploads fs;
     chunks := <[fh := <[key := buffer]> (default ∅ (chunks fs !! fh))]> (chunks fs) |}.

Definition upload (req : UploadRequest) (fs : FS) : Response * FS :=
  let b := body req in
  if negb (truthy (hash b)) || negb (truthy (fileHash b)) then
    (json 400 1 (Text "缺少必要参数 hash 或 fileHash"), fs)
  else
    match path_component (fileHash b) with
    | None => (upload_failed TypeError, fs)
    | Some fh =>
        let fs1 := ensure_chunk_dir fh fs in
        match path_component (hash b) with
        | None => (upload_failed TypeError, fs1)
        | Some key =>
            match req_file req with
            | None => (upload_failed TypeError, fs1)
            | Some buffer =>
                (json 200 0 (Text "分片上传成功"), write_chunk fh key buffer fs1)
            end
        end
    end.

(** ** POST /merge *)

(** A write stream: the file it was opened on and the offset of its own
    descriptor.  Opening truncates the file (flag [w]); each write goes to
    the descriptor's offset, which need not be the end of the file when
    another descriptor has truncated or written it; a gap reads as zero
    bytes.  The effects are taken to reach the disk when the call is made. *)
Record WriteStream := { ws_path : string; ws_pos : nat }.

Definition write_at (pos : nat) (buffer content : bytes) : bytes :=
  take pos (content ++ replicate (pos - length content) Byte.x00)
    ++ buffer ++ drop (pos + length buffer) content.

(** [fs.createWriteStream(filePath)]; [name] names one entry of [uploads/],
    and the open does not fail. *)
Definition createWriteStream (name : string) (fs : FS) : WriteStream * FS :=
  ({| ws_path := name; ws_pos := 0 |},
   {| uploads := <[name := []]> (uploads fs); chunks := chunks fs |}).

(** [writeStream.write(buffer)] *)
Definition stream_write (ws : WriteStream) (buffer : bytes) (fs : FS) : WriteStream * FS :=
  let content := default [] (uploads fs !! ws_path ws) in
  ({| ws_path := ws_path ws; ws_pos := ws_pos ws + length buffer |},
   {| uploads := <[ws_path ws := write_at (ws_pos ws) buffer content]> (uploads fs);
      chunks := chunks fs |}).

(** [fs.promises.readFile(path.join(chunkDir, chunk))] *)
Definition read_chunk (fh chunk : string) (fs : FS) : option bytes :=
  chunks fs !! fh ≫= fun dir => dir !! chunk.

(** [fs.promises.unlink(path.join(chunkDir, chunk))] *)
Definition unlink_chunk (fh chunk : string) (fs : FS) : option FS :=
  match chunks fs !! fh with
  | Some dir =>
      match dir !! chunk with
      | Some _ =>
          Some {| uploads := uploads fs;
                  chunks := <[fh := delete chunk dir]> (chunks fs) |}
      | None => None
      end
  | None => None
  end.

(** [fs.promises.rmdir(chunkDir)], the callback of the one-second timer. *)
Definition rmdir_chunk_dir (fh : string) (fs : FS) : Error + FS :=
  match chunks fs !! fh with
  | Some dir =>
      if decide (dir = ∅) then
        inr {| uploads := uploads fs; chunks := delete fh (chunks fs) |}
      else inl ENOTEMPTY
  | None => inl ENOENT
  end.

Definition merge_failed (e : Error) : Response :=
  json 500 1 (TextError "文件合并失败: " e).

Definition merge_succeeded (name : string) : Response :=
  {| status := 200; code := 0; message := Text "文件合并成功";
     exists_ := None; verified := None; details := None; file := None;
     url := Some ("/uploads/" +:+ name) |}.

(** The [for (const chunk of chunks)] loop; an error leaves the loop with
    the state reached so far. *)
Fixpoint merge_chunks (fh : string) (ws : WriteStream) (sorted : list string) (fs : FS)
  : option Error * FS :=
  match sorted with
  | [] => (None, fs)
  | chunk :: rest =>
      match read_chunk fh chunk fs with
      | None => (Some ENOENT, fs)
      | Some buffer =>
          let '(ws', fs1) := stream_write ws buffer fs in
          match unlink_chunk fh chunk fs1 with
          | None => (Some ENOENT, fs1)
          | Some fs2 => merge_chunks fh ws' rest fs2
          end
      end
  end.

(** What a call of the handler leaves behind: the response, the file
    system, and the chunk directory whose removal it has scheduled. *)
Record MergeOutcome := {
  response : Response;
  disk : FS;
  cleanup : option string
}.

(** The handler run without interruption.  [readdir] gives the order in
    which the system lists the entries of a directory ([readdir_sorted]
    below is the order of [fs.promises.readdir]). *)
Definition merge (readdir : gmap string bytes -> list string) (b : Body) (fs : FS)
  : MergeOutcome :=
  if missing_params b then
    {| response := json 400 1 (Text "缺少必要参数 fileHash 或 fileName");
       disk := fs; cleanup := None |}
  else
    match path_component (fileHash b), path_component (fileName b) with
    | Some fh, Some name =>
        match chunks fs !! fh with
        | None =>
            {| response := json 400 1 (Text "没有找到相关分片");
               disk := fs; cleanup := None |}
        | Some dir =>
            let listing := readdir dir in
            if (length listing =? 0)%nat then
              {| response := json 400 1 (Text "没有找到任何分片文件");
                 disk := fs; cleanup := None |}
            else
              let sorted := sort_chunks listing in
              let '(ws, fs1) := createWriteStream name fs in
              match merge_chunks fh ws sorted fs1 with
              | (Some e, fs2) =>
                  {| response := merge_failed e; disk := fs2; cleanup := None |}
              | (None, fs2) =>
                  {| response := merge_succeeded name; disk := fs2;
                     cleanup := Some fh |}
              end
        end
    | _, _ => {| response := merge_failed TypeError; disk := fs; cleanup := None |}
    end.

(** A listing order for a directory: each entry once. *)
Definition lists_dir (listing : list string) (dir : gmap string bytes) : Prop :=
  NoDup listing ∧ ∀ key, key ∈ listing ↔ is_Some (dir !! key).

(** ** [fs.promises.readdir]

    The runtime reads a directory with [scandir] and sorts the names with
    [strcmp]: the listing is in ascending byte order. *)

Fixpoint name_leb (a b : string) : bool :=
  match a, b with
  | EmptyString, _ => true
  | String _ _, EmptyString => false
  | String c a', String d b' =>
      (char_code c <? char_code d)
      || ((char_code c =? char_code d) && name_leb a' b')
  end.

Definition name_le (a b : string) : Prop := name_leb a b = true.

#[global] Instance name_le_dec a b : Decision (name_le a b) :=
  decide (name_leb a b = true).

Definition readdir_sorted (dir : gmap string bytes) : list string :=
  merge_sort name_le (map_to_list dir).*1.

(** ** GET /files *)

(** The body of the answer: the list under [data], or a message. *)
Record FilesResponse := {
  files_status : Z;
  files_code : Z;
  files_data : option (list FileInfo);
  files_message : option Message
}.

(** [fs.statSync(path.join(uploadDir, file))], which throws when the entry
    is not there. *)
Definition stat_file (fs : FS) (file : string) : option FileInfo :=
  (fun content => {| file_name := file; file_size := Z.of_nat (length content) |})
    <$> uploads fs !! file.

Definition list_files (readdir : gmap string bytes -> list string) (fs : FS)
  : FilesResponse :=
  match mapM (stat_file fs) (readdir (uploads fs)) with
  | Some fileList =>
      {| files_status := 200; files_code := 0; files_data := Some fileList;
         files_message := None |}
  | None =>
      {| files_status := 500; files_code := 1; files_data := None;
         files_message := Some (TextError "获取文件列表失败: " ENOENT) |}
  end.

(** ** The merge handler on the event loop

    The handler is an [async] function: it runs until an [await], the
    awaited file-system operation is carried out at some later moment, and
    the handler resumes at some moment after that.  Other handlers run in
    between.  A task records where one call of the handler stands. *)

Inductive MergeTask :=
| Called (b : Body)
| ReaddirIssued (fh name : string)
| ReaddirSettled (fh name : string) (result : Error + list string)
| ReadIssued (fh name : string) (ws : WriteStream) (chunk : string) (rest : list string)
| ReadSettled (fh name : string) (ws : WriteStream) (chunk : string) (rest : list string)
    (result : Error + bytes)
| UnlinkIssued (fh name : string) (ws : WriteStream) (chunk : string) (rest : list string)
| UnlinkSettled (fh name : string) (ws : WriteStream) (chunk : string) (rest : list string)
    (result : option Error)
| Finished (r : Response).

(** One step of a task: the code up to the next [await], or the awaited
    operation itself.  The third component is the directory whose removal
    the step schedules with [setTimeout]. *)
Definition task_step (readdir : gmap string bytes -> list string) (t : MergeTask) (fs : FS)
  : MergeTask * FS * option string :=
  match t with
  | Called b =>
      if missing_params b then
        (Finished (json 400 1 (Text "缺少必要参数 fileHash 或 fileName")), fs, None)
      else
        match path_component (fileHash b), path_component (fileName b) with
        | Some fh, Some name =>
            match chunks fs !! fh with
            | None => (Finished (json 400 1 (Text "没有找到相关分片")), fs, None)
            | Some _ => (ReaddirIssued fh name, fs, None)
            end
        | _, _ => (Finished (merge_failed TypeError), fs, None)
        end
  | ReaddirIssued fh name =>
      match chunks fs !! fh with
      | None => (ReaddirSettled fh name (inl ENOENT), fs, None)
      | Some dir => (ReaddirSettled fh name (inr (readdir dir)), fs, None)
      end
  | ReaddirSettled fh name (inl e) => (Finished (merge_failed e), fs, None)
  | ReaddirSettled fh name (inr listing) =>
      if (length listing =? 0)%nat then
        (Finished (json 400 1 (Text "没有找到任何分片文件")), fs, None)
      else
        let sorted := sort_chunks listing in
        let '(ws, fs1) := createWriteStream name fs in
        match sorted with
        | chunk :: rest => (ReadIssued fh name ws chunk rest, fs1, None)
        | [] => (Finished (merge_succeeded name), fs1, Some fh)
        end
  | ReadIssued fh name ws chunk rest =>
      match read_chunk fh chunk fs with
      | None => (ReadSettled fh name ws chunk rest (inl ENOENT), fs, None)
      | Some buffer => (ReadSettled fh name ws chunk rest (inr buffer), fs, None)
      end
  | ReadSettled fh name ws chunk rest (inl e) => (Finished (merge_failed e), fs, None)
  | ReadSettled fh name ws chunk rest (inr buffer) =>
      let '(ws', fs1) := stream_write ws buffer fs in
      (UnlinkIssued fh name ws' chunk rest, fs1, None)
  | UnlinkIssued fh name ws chunk rest =>
      match unlink_chunk fh chunk fs with
      | None => (UnlinkSettled fh name ws chunk rest (Some ENOENT), fs, None)
      | Some fs1 => (UnlinkSettled fh name ws chunk rest None, fs1, None)
      end
  | UnlinkSettled fh name ws chunk rest (Some e) => (Finished (merge_failed e), fs, None)
  | UnlinkSettled fh name ws chunk rest None =>
      match rest with
      | chunk' :: rest' => (ReadIssued fh name ws chunk' rest', fs, None)
      | [] => (Finished (merge_succeeded name), fs, Some fh)
      end
  | Finished r => (Finished r, fs, None)
  end.

(** The server with several merge calls in flight. *)
Record World := {
  w_disk : FS;
  tasks : list MergeTask;
  timers : list string
}.

Inductive Action :=
| Step (i : nat)   (* task [i] takes its next step *)
| Fire.            (* the oldest timer fires *)

Definition act (readdir : gmap string bytes -> list string) (w : World) (a : Action) : World :=
  match a with
  | Step i =>
      match tasks w !! i with
      | Some t =>
          let '(t', fs', timer) := task_step readdir t (w_disk w) in
          {| w_disk := fs'; tasks := <[i := t']> (tasks w);
             timers := timers w ++ option_list timer |}
      | None => w
      end
  | Fire =>
      match timers w with
      | fh :: timers' =>
          {| w_disk := match rmdir_chunk_dir fh (w_disk w) with
                       | inr fs' => fs'
                       | inl _ => w_disk w
                       end;
             tasks := tasks w; timers := timers' |}
      | [] => w
      end
  end.

Definition run (readdir : gmap string bytes -> list string) (w : World) (sched : list Action)
  : World :=
  foldl (act readdir) w sched.

(** Merge calls just received, none started. *)
Definition received (fs : FS) (bodies : list Body) : World :=
  {| w_disk := fs; tasks := Called <$> bodies; timers := [] |}.

(** ** Vocabulary of the statements *)

Definition str (s : string) : bytes := list_byte_of_string s.





(** The order of Number values, on integers: infinities at the ends. *)
Definition rank (x : number) : Z :=
  match x with
  | Num z => z
  | PosInf => 2 ^ 1024
  | NegInf => - 2 ^ 1024
  | NaN => 0
  end.

Definition finite_double (x : number) : Prop :=
  match x with
  | Num z => Z.abs z < 2 ^ 1024
  | _ => True
  end.

Definition index_rank (key : string) : Z := rank (chunk_index key).


(** The bytes stored under a key. *)
Definition slot (dir : gmap string bytes) (key : string) : bytes :=
  default [] (dir !! key).

(** A listing order of every directory. *)
Definition readdir_ok (readdir : gmap string bytes -> list string) : Prop :=
  ∀ dir, lists_dir (readdir dir) dir.

(** The order in which this model's maps enumerate their keys. *)
Definition listing_order (dir : gmap string bytes) : list string :=
  (map_to_list dir).*1.

Definition chunk_body (fh key : string) : Body :=
  {| fileHash := JString fh; fileName := JUndefined; size := JUndefined;
     hash := JString key |}.

(** Chunk uploads of one session, in the order of arrival. *)
Definition upload_all (fh : string) (writes : list (string * bytes)) (fs : FS) : FS :=
  foldl (fun fs w => (upload {| body := chunk_body fh w.1; req_file := Some w.2 |} fs).2)
        fs writes.

(** The stream emits the whole content and ends. *)
Definition reads_to_end (content : bytes) (events : list StreamEvent) : Prop :=
  ∃ pieces, events = (OnData <$> pieces) ++ [OnEnd] ∧ concat pieces = content.

(** No chunk is stored under the file hash: the container is absent, or
    present and empty. *)
Definition no_chunks (fh : string) (fs : FS) : Prop :=
  chunks fs !! fh = None ∨ chunks fs !! fh = Some ∅.



(** Writing the slots of a directory one after the other. *)
Definition store_all (writes : list (string * bytes)) (dir : gmap string bytes)
  : gmap string bytes :=
  foldl (fun d w => <[w.1 := w.2]> d) dir writes.








(** A world with one task. *)
Definition alone (t : MergeTask) (fs : FS) (tm : list string) : World :=
  {| w_disk := fs; tasks := [t]; timers := tm |}.

(** A string of decimal digits, at least one. *)
Fixpoint all_digits (s : string) : bool :=
  match s with
  | EmptyString => true
  | String c s' => is_digit c && all_digits s'
  end.

Definition digit_string (s : string) : Prop :=
  s ≠ "" ∧ all_digits s = true.

(** The total number of bytes stored in a directory. *)
Definition total_bytes (writes : list (string * bytes)) : nat :=
  length (concat writes.*2).

(** The task works on the chunks of [fh] and on the artifact [name]. *)
Definition own (fh name : string) (t : MergeTask) : Prop :=
  match t with
  | Called b => fileHash b = JString fh ∧ fileName b = JString name
  | ReaddirIssued fh' name' | ReaddirSettled fh' name' _ => fh' = fh ∧ name' = name
  | ReadIssued fh' name' ws _ _ | ReadSettled fh' name' ws _ _ _
  | UnlinkIssued fh' name' ws _ _ | UnlinkSettled fh' name' ws _ _ _ =>
      fh' = fh ∧ name' = name ∧ ws_path ws = name
  | Finished _ => True
  end.

(** The task works neither on the chunks of [fh] nor on the artifact
    [name]. *)
Definition foreign (fh name : string) (t : MergeTask) : Prop :=
  match t with
  | Called b =>
      path_component (fileHash b) ≠ Some fh ∧ path_component (fileName b) ≠ Some name
  | ReaddirIssued fh' name' | ReaddirSettled fh' name' _ => fh' ≠ fh ∧ name' ≠ name
  | ReadIssued fh' _ ws _ _ | ReadSettled fh' _ ws _ _ _
  | UnlinkIssued fh' _ ws _ _ | UnlinkSettled fh' _ ws _ _ _ =>
      fh' ≠ fh ∧ ws_path ws ≠ name
  | Finished _ => True
  end.

Definition is_finished (t : MergeTask) : Prop :=
  match t with
  | Finished _ => True
  | _ => False
  end.

(** Two disks with the same chunks under [fh] and the same artifact
    [name]. *)
Definition agree (fh name : string) (fs1 fs2 : FS) : Prop :=
  chunks fs1 !! fh = chunks fs2 !! fh ∧ uploads fs1 !! name = uploads fs2 !! name.

(** The number of steps a schedule gives to task [i]. *)
Fixpoint count_steps (i : nat) (sched : list Action) : nat :=
  match sched with
  | [] => 0
  | Step j :: sched' =>
      if decide (j = i) then S (count_steps i sched') else count_steps i sched'
  | Fire :: sched' => count_steps i sched'
  end.

(** Task [i] of the server stands where the task of the second world
    stands, which runs alone; the other tasks are foreign to its chunks and
    its artifact. *)
Record alone_sim (fh name : string) (i : nat) (w a : World) : Prop := {
  sim_task : ∃ t, tasks w !! i = Some t ∧ tasks a = [t] ∧ own fh name t
                  ∧ (¬ is_finished t ->
                     chunks (w_disk w) !! fh = chunks (w_disk a) !! fh);
  sim_uploads : uploads (w_disk w) !! name = uploads (w_disk a) !! name;
  sim_others : ∀ j t, j ≠ i -> tasks w !! j = Some t -> foreign fh name t;
  sim_timers : fh ∈ timers w -> ∃ r, tasks w !! i = Some (Finished r)
}.

(** ** Names

    A name that [path.join] leaves as it is and that the file system takes
    as the name of one entry: at most 255 bytes, each an ASCII character
    other than NUL and the separator, and not [.] or [..]. *)

Definition plain_char (c : ascii) : bool :=
  (0 <? char_code c) && (char_code c <? 128) && negb (char_code c =? 47).

Fixpoint plain_chars (s : string) : bool :=
  match s with
  | EmptyString => true
  | String c s' => plain_char c && plain_chars s'
  end.

Definition is_plain_name (s : string) : bool :=
  negb (String.eqb s "") && negb (String.eqb s ".") && negb (String.eqb s "..")
  && (Z.of_nat (String.length s) <=? 255) && plain_chars s.

Definition plain_name (s : string) : Prop := is_plain_name s = true.

(** A body field that is not a string, or is empty, or is a plain name. *)
Definition plain_field (v : JsValue) : Prop :=
  match v with
  | JString s => s = "" ∨ plain_name s
  | _ => True
  end.

(** [limits: { fileSize: 20 * 1024 * 1024 }]: the payload of a request that
    reaches the upload handler is below the limit. *)
Definition fileSize : Z := 20 * 1024 * 1024.

Definition below_limit (buffer : bytes) : Prop :=
  Z.of_nat (length buffer) < fileSize.



(** The statuses of the answers to the chunk uploads of a session. *)
Fixpoint upload_statuses (fh : string) (writes : list (string * bytes)) (fs : FS)
  : list Z :=
  match writes with
  | [] => []
  | w :: writes' =>
      let r := upload {| body := chunk_body fh w.1; req_file := Some w.2 |} fs in
      status r.1 :: upload_statuses fh writes' r.2
  end.

(** ** Scenarios *)

Definition request (fh name : string) (declared : JsValue) : Body :=
  {| fileHash := JString fh; fileName := JString name; size := declared;
     hash := JUndefined |}.

(** A completed store holding one zero-byte artifact. *)
Definition empty_artifact_disk : FS :=
  {| uploads := {[ "empty.bin" := [] ]}; chunks := ∅ |}.

(** A completed store holding the artifact of the specification's
    scenario. *)
Definition aabbcc_disk : FS :=
  {| uploads := {[ "f.bin" := str "AABBCC" ]}; chunks := ∅ |}.

Definition aabbcc_read : list StreamEvent := [OnData (str "AABB"); OnData (str "CC"); OnEnd].

(** An empty disk, and the disk after a chunk upload that lost its payload. *)
Definition blank_disk : FS := {| uploads := ∅; chunks := ∅ |}.


(** The end-to-end scenario of the specification: three chunks in their
    order of arrival. *)
Definition h1_writes : list (string * bytes) :=
  [("0-a", str "AA"); ("2-c", str "CC"); ("1-b", str "BB")].



(** Two chunks of a session, and two merge calls for it that name the
    same artifact. *)
Definition two_chunk_disk : FS :=
  upload_all "H1" [("0-a", str "AA"); ("1-b", str "BB")] blank_disk.







(** Two sessions with merge calls that name different artifacts. *)
Definition two_session_disk : FS :=
  upload_all "H2" [("0-x", str "XX"); ("1-y", str "YY")] two_chunk_disk.

Definition two_session_merges : list Body :=
  [request "H1" "f.bin" (JNumber 4); request "H2" "g.bin" (JNumber 4)].

(** * Properties *)

(** ** Sorting with a comparator that compares keys *)

Section SortFacts.
Context {A : Type} (cmp : A -> A -> number) (f : A -> Z) (P : A -> Prop).
Hypothesis cmp_spec : ∀ x y, P x -> P y -> is_positive (cmp x y) = (f y <? f x).

Lemma sort_insert_perm x l : sort_insert cmp x l ≡ₚ x :: l.
Proof.
  induction l as [|y l IH]; simpl; [done|].
  destruct (is_positive (cmp x y)); [|done].
  rewrite IH. apply Permutation_swap.
Qed.

Lemma array_sort_perm l : array_sort cmp l ≡ₚ l.
Proof.
  induction l as [|x l IH]; simpl; [done|].
  by rewrite sort_insert_perm, IH.
Qed.



Lemma sort_insert_stable n x l :
  P x -> Forall P l ->
  filter (fun a => f a = n) (sort_insert cmp x l) = filter (fun a => f a = n) (x :: l).
Proof.
  intros Hx HP. induction HP as [|y l Py Pl IH]; simpl; [done|].
  rewrite (cmp_spec x y Hx Py).
  destruct (Z.ltb_spec (f y) (f x)) as [Hlt|Hge]; [|done].
  rewrite !filter_cons. rewrite filter_cons in IH. rewrite IH.
  repeat case_decide; try done; lia.
Qed.

Lemma array_sort_stable n l :
  Forall P l ->
  filter (fun a => f a = n) (array_sort cmp l) = filter (fun a => f a = n) l.
Proof.
  induction 1 as [|x l Hx HP IH]; simpl; [done|].
  rewrite sort_insert_stable; [|done|by rewrite array_sort_perm].
  by rewrite !filter_cons, IH.
Qed.

End SortFacts.

(** ** Numbers *)


Lemma round_mag_pos n : 0 < n -> 0 < round_mag n.
Proof.
  intros Hn. unfold round_mag.
  destruct (Z.ltb_spec n (2 ^ 53)) as [|Hbig]; [done|].
  assert (52 < Z.log2 n) as Hlog.
  { enough (53 <= Z.log2 n) by lia. by apply Z.log2_le_pow2. }
  set (e := Z.log2 n - 52).
  assert (0 < Z.shiftr n e) as Hq.
  { rewrite Z.shiftr_div_pow2 by lia.
    apply Z.div_str_pos. split; [by apply Z.pow_pos_nonneg; lia|].
    transitivity (2 ^ Z.log2 n); [apply Z.pow_le_mono_r; lia|].
    apply Z.log2_spec; lia. }
  rewrite Z.shiftl_mul_pow2 by lia.
  apply Z.mul_pos_pos; [|apply Z.pow_pos_nonneg; lia].
  repeat case_match; lia.
Qed.

Lemma round_mag_nonneg n : 0 <= n -> 0 <= round_mag n.
Proof.
  intros Hn. destruct (Z.eq_dec n 0) as [->|]; [by vm_compute|].
  pose proof (round_mag_pos n). lia.
Qed.


Lemma to_number_finite z : finite_double (to_number z).
Proof.
  unfold to_number.
  pose proof (round_mag_nonneg (Z.abs z) (Z.abs_nonneg z)) as Hm.
  destruct (Z.leb_spec (2 ^ 1024) (round_mag (Z.abs z))) as [|Hlt].
  - by case_match.
  - simpl. revert Hm Hlt. generalize (round_mag (Z.abs z)), (2 ^ 1024).
    intros m B ? ?. destruct z; simpl; lia.
Qed.

Lemma is_positive_to_number z : is_positive (to_number z) = (0 <? z).
Proof.
  unfold to_number.
  destruct (Z.leb_spec (2 ^ 1024) (round_mag (Z.abs z))) as [|Hlt].
  - destruct (Z.ltb_spec z 0), (Z.ltb_spec 0 z); simpl; try done; try lia.
    assert (z = 0) as -> by lia. vm_compute in H. done.
  - simpl. destruct (Z.ltb_spec 0 z) as [Hz|Hz].
    + pose proof (round_mag_pos (Z.abs z)).
      apply Z.ltb_lt. apply Z.mul_pos_pos; lia.
    + pose proof (round_mag_nonneg (Z.abs z) (Z.abs_nonneg z)).
      apply Z.ltb_ge. destruct z; simpl in *; lia.
Qed.

Lemma is_positive_js_sub x y :
  x ≠ NaN -> y ≠ NaN -> finite_double x -> finite_double y ->
  is_positive (js_sub x y) = (rank y <? rank x).
Proof.
  intros Hx Hy Fx Fy. destruct x as [|a| |], y as [|b| |]; try done; simpl in *.
  - rewrite is_positive_to_number.
    destruct (Z.ltb_spec 0 (a - b)), (Z.ltb_spec b a); done || lia.
  - symmetry. apply Z.ltb_ge. lia.
  - symmetry. apply Z.ltb_lt. lia.
  - symmetry. apply Z.ltb_lt. lia.
  - symmetry. apply Z.ltb_ge. lia.
Qed.

(** ** [parseInt] on decimal numerals *)

Lemma parseInt_finite s : finite_double (parseInt s).
Proof.
  unfold parseInt. destruct (strip_sign _) as [sign s1].
  destruct (strip_radix_prefix _) as [R s2].
  destruct (read_digits _ _ _); [apply to_number_finite|done].
Qed.










(** The comparator of the handler compares the Number values of the leading
    segments, as long as they are numbers. *)
Lemma compare_chunks_spec a b :
  chunk_index a ≠ NaN -> chunk_index b ≠ NaN ->
  is_positive (compare_chunks a b) = (index_rank b <? index_rank a).
Proof.
  intros Ha Hb. unfold compare_chunks, index_rank.
  apply is_positive_js_sub; try done; apply parseInt_finite.
Qed.

Lemma sort_chunks_perm keys : sort_chunks keys ≡ₚ keys.
Proof. apply array_sort_perm. Qed.


Lemma sort_chunks_stable n keys :
  Forall (fun k => chunk_index k ≠ NaN) keys ->
  filter (fun k => index_rank k = n) (sort_chunks keys)
  = filter (fun k => index_rank k = n) keys.
Proof.
  apply (array_sort_stable compare_chunks index_rank (fun k => chunk_index k ≠ NaN)).
  apply compare_chunks_spec.
Qed.

(** ** The disk *)

Lemma truthy_string s : s ≠ "" -> truthy (JString s) = true.
Proof. simpl. intros H. by apply negb_true_iff, String.eqb_neq. Qed.

Lemma write_at_end content buffer :
  write_at (length content) buffer content = content ++ buffer.
Proof.
  unfold write_at. rewrite Nat.sub_diag. simpl. rewrite app_nil_r.
  rewrite firstn_all. rewrite drop_ge by lia. by rewrite app_nil_r.
Qed.

Lemma lists_dir_listing_order : readdir_ok listing_order.
Proof.
  intros dir. split.
  - apply NoDup_fst_map_to_list.
  - intros key. unfold listing_order. rewrite list_elem_of_fmap. split.
    + intros ([k v] & -> & H%elem_of_map_to_list). by exists v.
    + intros [v H]. exists (key, v). split; [done|].
      by apply elem_of_map_to_list.
Qed.

Lemma lists_dir_nil dir : lists_dir [] dir -> dir = ∅.
Proof.
  intros [_ H]. apply map_eq. intros k. rewrite lookup_empty.
  apply eq_None_not_Some. rewrite <- H. apply not_elem_of_nil.
Qed.

Lemma lists_dir_empty listing : lists_dir listing ∅ -> listing = [].
Proof.
  intros [_ H]. destruct listing as [|k l]; [done|].
  destruct (proj1 (H k)) as [? Hk]; [left|]. by rewrite lookup_empty in Hk.
Qed.

(** The loop appends the listed chunks to the artifact and removes them. *)
Lemma merge_chunks_appends fh sorted : ∀ ws fs acc dir,
  ws_pos ws = length acc ->
  uploads fs !! ws_path ws = Some acc ->
  chunks fs !! fh = Some dir ->
  NoDup sorted ->
  (∀ k, k ∈ sorted -> is_Some (dir !! k)) ->
  ∃ dir',
    merge_chunks fh ws sorted fs =
      (None, {| uploads := <[ws_path ws := acc ++ concat (slot dir <$> sorted)]> (uploads fs);
                chunks := <[fh := dir']> (chunks fs) |})
    ∧ ∀ k, dir' !! k = if decide (k ∈ sorted) then None else dir !! k.
Proof.
  induction sorted as [|chunk rest IH]; intros ws fs acc dir Hpos Hacc Hdir Hnd Hin.
  - exists dir. simpl. split.
    + rewrite app_nil_r.
      rewrite (insert_id (uploads fs)), (insert_id (chunks fs)) by done.
      by destruct fs.
    + done.
  - apply NoDup_cons in Hnd as [Hnotin Hnd].
    destruct (Hin chunk) as [buffer Hbuf]; [left|].
    simpl. unfold read_chunk. rewrite Hdir. simpl. rewrite Hbuf.
    unfold stream_write, unlink_chunk. simpl. rewrite Hacc, Hdir, Hbuf. simpl.
    rewrite Hpos, write_at_end.
    edestruct (IH {| ws_path := ws_path ws; ws_pos := length acc + length buffer |}
                 {| uploads := <[ws_path ws := acc ++ buffer]> (uploads fs);
                    chunks := <[fh := delete chunk dir]> (chunks fs) |}
                 (acc ++ buffer) (delete chunk dir)) as (dir' & -> & Hdir').
    + simpl. by rewrite length_app.
    + simpl. by rewrite lookup_insert_eq.
    + simpl. by rewrite lookup_insert_eq.
    + done.
    + intros k Hk. rewrite lookup_delete_ne by (intros ->; done).
      apply Hin. by right.
    + exists dir'. simpl. split.
      * rewrite !insert_insert_eq. do 3 f_equal.
        unfold slot at 2. rewrite Hbuf. simpl. rewrite <- app_assoc. do 3 f_equal.
        apply list_fmap_ext. intros i k Hk. unfold slot.
        rewrite lookup_delete_ne; [done|].
        intros ->. apply Hnotin. by eapply list_elem_of_lookup_2.
      * intros k. rewrite Hdir'.
        destruct (decide (k = chunk)) as [->|Hne].
        -- rewrite lookup_delete_eq, (decide_True (P := chunk ∈ chunk :: rest)) by left.
           by case_decide.
        -- rewrite lookup_delete_ne by done.
           destruct (decide (k ∈ rest)) as [Hr|Hr].
           ++ by rewrite decide_True by (by right).
           ++ rewrite decide_False; [done|]. rewrite elem_of_cons. intros [?|?]; done.
Qed.

(** A merge call with its parameters present, over a listed, non-empty
    chunk directory. *)
Lemma merge_ok readdir b fs fh name dir :
  fileHash b = JString fh -> fh ≠ "" ->
  fileName b = JString name -> name ≠ "" ->
  chunks fs !! fh = Some dir -> dir ≠ ∅ ->
  lists_dir (readdir dir) dir ->
  merge readdir b fs =
    {| response := merge_succeeded name;
       disk := {| uploads := <[name := concat (slot dir <$> sort_chunks (readdir dir))]> (uploads fs);
                  chunks := <[fh := ∅]> (chunks fs) |};
       cleanup := Some fh |}.
Proof.
  intros Hfh Hne Hname Hne' Hdir Hnonempty Hlist.
  unfold merge, missing_params. rewrite Hfh, Hname, !truthy_string by done.
  simpl. rewrite Hdir.
  destruct (readdir dir) as [|k0 l] eqn:Hl.
  { by apply lists_dir_nil in Hlist. }
  rewrite <- Hl in *. clear k0 l Hl.
  destruct (length (readdir dir)) eqn:Hlen.
  { apply nil_length_inv in Hlen. rewrite Hlen in Hlist.
    by apply lists_dir_nil in Hlist. }
  simpl.
  destruct Hlist as [Hnd Hin].
  edestruct (merge_chunks_appends fh (sort_chunks (readdir dir))
    {| ws_path := name; ws_pos := 0 |}
    {| uploads := <[name := []]> (uploads fs); chunks := chunks fs |} [] dir)
    as (dir' & -> & Hdir'); simpl; try done.
  - by rewrite lookup_insert_eq.
  - by rewrite sort_chunks_perm.
  - intros k. rewrite sort_chunks_perm. apply Hin.
  - rewrite insert_insert_eq. do 3 f_equal.
    apply map_eq. intros k. rewrite Hdir', lookup_empty.
    case_decide as Hk; [done|].
    rewrite sort_chunks_perm, Hin in Hk. by apply eq_None_not_Some.
Qed.

(** ** POST /check-file *)

Lemma missing_params_false b name :
  truthy (fileHash b) = true -> fileName b = JString name -> name ≠ "" ->
  missing_params b = false.
Proof.
  intros H1 H2 H3. unfold missing_params. by rewrite H1, H2, truthy_string.
Qed.




(** C9: when the declared size is falsy (0, absent, null, false, the empty
    string), the answer is exists=false whatever the completed store holds,
    also when an artifact of that name has exactly the declared size. *)
Theorem check_file_falsy_size b fs name :
  truthy (size b) = false ->
  truthy (fileHash b) = true -> fileName b = JString name -> name ≠ "" ->
  check_file b fs = not_exists.
Proof.
  intros Hsz Hfh Hname Hne. unfold check_file.
  rewrite (missing_params_false b name), Hname, Hsz by done. simpl.
  by destruct (uploads fs !! name).
Qed.

Lemma check_file_falsy_size_witness :
  uploads empty_artifact_disk !! "empty.bin" = Some []
  ∧ check_file (request "h" "empty.bin" (JNumber 0)) empty_artifact_disk = not_exists.
Proof.
  split; [reflexivity|].
  apply (check_file_falsy_size (request "h" "empty.bin" (JNumber 0)) empty_artifact_disk "empty.bin");
    [reflexivity | reflexivity | reflexivity | discriminate].
Defined.

(** ** calculateFileHash *)

Lemma hash_events_data pieces : ∀ updated rest,
  hash_events updated ((OnData <$> pieces) ++ rest)
  = hash_events (updated ++ concat pieces) rest.
Proof.
  induction pieces as [|d pieces IH]; intros updated rest; simpl.
  - by rewrite app_nil_r.
  - by rewrite IH, app_assoc.
Qed.

Lemma hash_events_resolved events : ∀ updated digest,
  hash_events updated events = Resolved digest ->
  ∃ pieces rest,
    events = (OnData <$> pieces) ++ OnEnd :: rest
    ∧ digest = MD5.hexdigest (updated ++ concat pieces).
Proof.
  induction events as [|ev events IH]; intros updated digest; simpl; [done|].
  destruct ev as [data| |e]; [|intros [= <-]|done].
  - intros (pieces & rest & -> & ->)%IH.
    exists (data :: pieces), rest. simpl. by rewrite app_assoc.
  - exists [], events. simpl. by rewrite app_nil_r.
Qed.

Lemma calculateFileHash_complete content events :
  reads_to_end content events ->
  calculateFileHash events = Resolved (MD5.hexdigest content).
Proof.
  intros (pieces & -> & <-). unfold calculateFileHash.
  by rewrite hash_events_data.
Qed.

Lemma hexdigest_nonempty data : MD5.hexdigest data ≠ "".
Proof.
  unfold MD5.hexdigest, MD5.digest_bytes.
  destruct (MD5.blocks _ _ _) as [[[a b] c] d]. done.
Qed.

(** C8: the digest promise is resolved only by the [end] event, with the
    digest of everything the stream delivered before it; an [error] event
    that comes before the end rejects the promise, whatever was read until
    then, and no digest is returned. *)
Theorem calculateFileHash_fails_closed :
  (∀ events digest,
     calculateFileHash events = Resolved digest ->
     ∃ pieces rest,
       events = (OnData <$> pieces) ++ OnEnd :: rest
       ∧ digest = MD5.hexdigest (concat pieces))
  ∧ (∀ pieces e rest,
       calculateFileHash ((OnData <$> pieces) ++ OnError e :: rest) = Rejected e).
Proof.
  split.
  - intros events digest H. by apply hash_events_resolved in H.
  - intros pieces e rest. unfold calculateFileHash. by rewrite hash_events_data.
Qed.

Lemma calculateFileHash_fails_closed_witness :
  (∃ pieces rest,
     aabbcc_read = (OnData <$> pieces) ++ OnEnd :: rest
     ∧ "8950ea40af4212ac838555be008297f3" = MD5.hexdigest (concat pieces))
  ∧ calculateFileHash ((OnData <$> [str "AABB"]) ++ OnError (ReadError "EIO") :: [OnEnd])
    = Rejected (ReadError "EIO").
Proof.
  split.
  - apply (proj1 calculateFileHash_fails_closed aabbcc_read). vm_compute. reflexivity.
  - apply (proj2 calculateFileHash_fails_closed).
Defined.

(** ** POST /verify *)

(** C3, as stated, fails: the declared hash [temp-1-] followed by the true
    digest is a string other than the digest, and the answer is
    verified=true. *)
Lemma verify_temp_prefix_counterexample :
  let D := MD5.hexdigest (str "AABBCC") in
  let declared := "temp-1-8950ea40af4212ac838555be008297f3" in
  uploads aabbcc_disk !! "f.bin" = Some (str "AABBCC")
  ∧ declared ≠ D
  ∧ verify aabbcc_read (request declared "f.bin" JUndefined) aabbcc_disk
    = Some verify_passed.
Proof. split; [reflexivity|]. split; [by vm_compute|by vm_compute]. Qed.

(** C3, amended: for an artifact whose read stream delivers its content to
    the end and whose digest is D, Verify with the declared hash D answers
    verified=true; so does a declared hash that becomes D once a leading
    [temp-<digits>-] is removed; every other non-empty declared hash answers
    verified=false, with the declared hash less that prefix as expected
    value and D as actual value. *)
Theorem verify_declared_hash events b fs name content fh :
  fileHash b = JString fh -> fileName b = JString name -> name ≠ "" ->
  uploads fs !! name = Some content ->
  reads_to_end content events ->
  let D := MD5.hexdigest content in
  (fh = D -> verify events b fs = Some verify_passed)
  ∧ (fh ≠ "" -> strip_temp_prefix fh = D -> verify events b fs = Some verify_passed)
  ∧ (fh ≠ "" -> fh ≠ D -> strip_temp_prefix fh ≠ D ->
     verify events b fs = Some (verify_mismatch (strip_temp_prefix fh) D)).
Proof.
  intros Hfh Hname Hne Hcontent Hread D.
  assert (fh ≠ "" -> verify events b fs =
            if String.eqb D (strip_temp_prefix fh) || String.eqb fh D
            then Some verify_passed
            else Some (verify_mismatch (strip_temp_prefix fh) D)) as Hverify.
  { intros Hfh'. unfold verify.
    rewrite (missing_params_false b name), Hname by (by rewrite ?Hfh, ?truthy_string).
    simpl. rewrite Hcontent, (calculateFileHash_complete content events Hread).
    by rewrite Hfh. }
  repeat split.
  - intros ->. rewrite Hverify by apply hexdigest_nonempty.
    by rewrite String.eqb_refl, orb_true_r.
  - intros Hfh' Hstrip. rewrite Hverify, Hstrip by done.
    by rewrite String.eqb_refl.
  - intros Hfh' Hne1 Hne2. rewrite Hverify by done.
    apply String.eqb_neq in Hne1. rewrite Hne1.
    assert (D ≠ strip_temp_prefix fh) as ->%String.eqb_neq by done. done.
Qed.

Lemma verify_declared_hash_witness :
  let D := MD5.hexdigest (str "AABBCC") in
  let b := request "8950ea40af4212ac838555be008297f4" "f.bin" JUndefined in
  ("8950ea40af4212ac838555be008297f4" = D -> verify aabbcc_read b aabbcc_disk = Some verify_passed)
  ∧ ("8950ea40af4212ac838555be008297f4" ≠ "" ->
     strip_temp_prefix "8950ea40af4212ac838555be008297f4" = D ->
     verify aabbcc_read b aabbcc_disk = Some verify_passed)
  ∧ ("8950ea40af4212ac838555be008297f4" ≠ "" ->
     "8950ea40af4212ac838555be008297f4" ≠ D ->
     strip_temp_prefix "8950ea40af4212ac838555be008297f4" ≠ D ->
     verify aabbcc_read b aabbcc_disk
     = Some (verify_mismatch (strip_temp_prefix "8950ea40af4212ac838555be008297f4") D)).
Proof.
  apply (verify_declared_hash aabbcc_read
           (request "8950ea40af4212ac838555be008297f4" "f.bin" JUndefined)
           aabbcc_disk "f.bin" (str "AABBCC") "8950ea40af4212ac838555be008297f4");
    [reflexivity | reflexivity | discriminate | reflexivity |].
  exists [str "AABB"; str "CC"]. split; reflexivity.
Defined.

(** ** POST /upload *)

Lemma upload_stores fh key buffer fs b :
  fileHash b = JString fh -> fh ≠ "" -> hash b = JString key -> key ≠ "" ->
  upload {| body := b; req_file := Some buffer |} fs =
    (json 200 0 (Text "分片上传成功"),
     {| uploads := uploads fs;
        chunks := <[fh := <[key := buffer]> (default ∅ (chunks fs !! fh))]> (chunks fs) |}).
Proof.
  intros Hfh Hne Hkey Hne'. unfold upload. simpl.
  rewrite Hfh, Hkey, !truthy_string by done. simpl. f_equal.
  unfold write_chunk, ensure_chunk_dir.
  destruct (chunks fs !! fh) as [dir|] eqn:Hdir; simpl.
  - by rewrite Hdir.
  - by rewrite lookup_insert_eq, insert_insert_eq.
Qed.





(** ** POST /merge: no chunks *)

(** C4: a merge call for a fileHash with no stored chunk, the container
    absent or empty, is answered with the no-chunks error (status 400, code
    1) and leaves the disk, the completed store included, as it was; no
    cleanup is scheduled. *)
Theorem merge_without_chunks readdir b fs fh name :
  fileHash b = JString fh -> fh ≠ "" ->
  fileName b = JString name -> name ≠ "" ->
  no_chunks fh fs ->
  lists_dir (readdir ∅) ∅ ->
  let o := merge readdir b fs in
  status (response o) = 400 ∧ code (response o) = 1
  ∧ (message (response o) = Text "没有找到相关分片"
     ∨ message (response o) = Text "没有找到任何分片文件")
  ∧ disk o = fs
  ∧ uploads (disk o) = uploads fs
  ∧ cleanup o = None.
Proof.
  intros Hfh Hne Hname Hne' Hnone Hlist. unfold merge, missing_params.
  rewrite Hfh, Hname, !truthy_string by done. simpl.
  destruct Hnone as [->| ->]; simpl.
  - repeat split; auto.
  - rewrite (lists_dir_empty _ Hlist). simpl. repeat split; auto.
Qed.

Lemma merge_without_chunks_witness :
  let o := merge listing_order (request "H1" "f.bin" (JNumber 6)) blank_disk in
  status (response o) = 400 ∧ code (response o) = 1
  ∧ (message (response o) = Text "没有找到相关分片"
     ∨ message (response o) = Text "没有找到任何分片文件")
  ∧ disk o = blank_disk
  ∧ uploads (disk o) = uploads blank_disk
  ∧ cleanup o = None.
Proof.
  apply (merge_without_chunks listing_order (request "H1" "f.bin" (JNumber 6)) blank_disk "H1" "f.bin");
    [reflexivity | discriminate | reflexivity | discriminate | left; reflexivity
    | apply lists_dir_listing_order].
Defined.

(** ** Sorted lists *)




(** ** Chunk uploads of one session *)

Lemma upload_all_cons fh w writes fs :
  upload_all fh (w :: writes) fs
  = upload_all fh writes (upload {| body := chunk_body fh w.1; req_file := Some w.2 |} fs).2.
Proof. done. Qed.

Lemma upload_all_stores fh writes : ∀ fs,
  fh ≠ "" -> writes ≠ [] -> Forall (fun w => w.1 ≠ "") writes ->
  upload_all fh writes fs =
    {| uploads := uploads fs;
       chunks := <[fh := store_all writes (default ∅ (chunks fs !! fh))]> (chunks fs) |}.
Proof.
  induction writes as [|w writes IH]; intros fs Hfh Hne Hkeys; [done|].
  apply Forall_cons in Hkeys as [Hw Hkeys].
  rewrite upload_all_cons. erewrite upload_stores by done. simpl.
  destruct writes as [|w' writes]; [done|].
  rewrite IH by done. simpl. rewrite lookup_insert_eq. simpl.
  by rewrite insert_insert_eq.
Qed.

Lemma store_all_union writes : ∀ dir,
  store_all writes dir = list_to_map (reverse writes) ∪ dir.
Proof.
  induction writes as [|w writes IH]; intros dir; simpl.
  - by rewrite (left_id_L ∅ (∪)).
  - unfold store_all in *. simpl. rewrite IH.
    rewrite reverse_cons, list_to_map_app. simpl.
    rewrite <- (assoc_L (∪)). f_equal.
    by rewrite <- insert_union_l, (left_id_L ∅ (∪)).
Qed.

Lemma store_all_fresh writes :
  NoDup writes.*1 -> store_all writes ∅ = list_to_map writes.
Proof.
  intros Hnd. rewrite store_all_union, (right_id_L ∅ (∪)).
  apply list_to_map_proper; [|apply reverse_Permutation].
  by rewrite reverse_Permutation.
Qed.

Lemma lists_dir_perm listing writes :
  NoDup writes.*1 -> lists_dir listing (list_to_map writes) -> listing ≡ₚ writes.*1.
Proof.
  intros Hnd [Hnd' Hin]. apply NoDup_Permutation; try done.
  intros k. rewrite Hin. rewrite <- elem_of_dom, dom_list_to_map_L.
  by rewrite elem_of_list_to_set.
Qed.

Lemma slot_list_to_map writes w :
  NoDup writes.*1 -> w ∈ writes -> slot (list_to_map writes) w.1 = w.2.
Proof.
  intros Hnd Hw. unfold slot.
  rewrite (elem_of_list_to_map_1 writes w.1 w.2); [done|done|by destruct w].
Qed.



Lemma lists_dir_of_perm listing listing' dir :
  listing' ≡ₚ listing -> lists_dir listing dir -> lists_dir listing' dir.
Proof.
  intros Hp [Hnd Hin]. split; [by rewrite Hp|].
  intros k. by rewrite Hp.
Qed.

(** Merging the chunks of a session that began with no container. *)
Lemma merge_session readdir fs fh name b writes :
  fileHash b = JString fh -> fh ≠ "" ->
  fileName b = JString name -> name ≠ "" ->
  chunks fs !! fh = None ->
  writes ≠ [] -> NoDup writes.*1 -> Forall (fun w => w.1 ≠ "") writes ->
  lists_dir (readdir (list_to_map writes)) (list_to_map writes) ->
  merge readdir b (upload_all fh writes fs) =
    {| response := merge_succeeded name;
       disk := {| uploads := <[name := concat (slot (list_to_map writes)
                                  <$> sort_chunks (readdir (list_to_map writes)))]> (uploads fs);
                  chunks := <[fh := ∅]> (chunks fs) |};
       cleanup := Some fh |}.
Proof.
  intros Hfh Hne Hname Hne' Hdir Hwrites Hnd Hkeys Hlist.
  rewrite upload_all_stores, Hdir by done. simpl.
  rewrite store_all_fresh by done.
  erewrite merge_ok; try done; simpl.
  - by rewrite insert_insert_eq.
  - by rewrite lookup_insert_eq.
  - destruct writes as [|w writes]; [done|]. simpl. apply insert_non_empty.
Qed.

(** ** The order of names *)

Lemma char_code_inj c d : char_code c = char_code d -> c = d.
Proof.
  unfold char_code. intros H%(inj Z.of_N).
  by rewrite <- (ascii_N_embedding c), <- (ascii_N_embedding d), H.
Qed.

Lemma name_leb_refl a : name_leb a a = true.
Proof.
  induction a as [|c a IH]; simpl; [done|].
  by rewrite Z.eqb_refl, IH, orb_true_r.
Qed.

Lemma name_leb_trans a : ∀ b c,
  name_leb a b = true -> name_leb b c = true -> name_leb a c = true.
Proof.
  induction a as [|x a IH]; intros [|y b] [|z c]; simpl; try done.
  intros [?%Z.ltb_lt|[?%Z.eqb_eq Hab]%andb_true_iff]%orb_true_iff
         [?%Z.ltb_lt|[?%Z.eqb_eq Hbc]%andb_true_iff]%orb_true_iff;
    apply orb_true_iff.
  - left. apply Z.ltb_lt. lia.
  - left. apply Z.ltb_lt. lia.
  - left. apply Z.ltb_lt. lia.
  - right. apply andb_true_iff. split; [apply Z.eqb_eq; lia|by eapply IH].
Qed.

Lemma name_leb_total a : ∀ b, name_leb a b = true ∨ name_leb b a = true.
Proof.
  induction a as [|x a IH]; intros [|y b]; simpl; auto.
  destruct (Z.lt_total (char_code x) (char_code y)) as [?|[Heq|?]].
  - left. apply orb_true_iff. left. by apply Z.ltb_lt.
  - rewrite Heq, Z.eqb_refl, Z.ltb_irrefl. simpl. apply IH.
  - right. apply orb_true_iff. left. by apply Z.ltb_lt.
Qed.

Lemma name_leb_antisym a : ∀ b,
  name_leb a b = true -> name_leb b a = true -> a = b.
Proof.
  induction a as [|x a IH]; intros [|y b]; simpl; try done.
  intros [?%Z.ltb_lt|[?%Z.eqb_eq Hab]%andb_true_iff]%orb_true_iff
         [?%Z.ltb_lt|[?%Z.eqb_eq Hba]%andb_true_iff]%orb_true_iff; try lia.
  f_equal; [by apply char_code_inj|by apply IH].
Qed.

#[global] Instance name_le_trans : Transitive name_le.
Proof. intros a b c. apply name_leb_trans. Qed.

#[global] Instance name_le_total : Total name_le.
Proof. intros a b. apply name_leb_total. Qed.

#[global] Instance name_le_antisym : AntiSymm (=) name_le.
Proof. intros a b. apply name_leb_antisym. Qed.

Lemma readdir_sorted_ok : readdir_ok readdir_sorted.
Proof.
  intros dir. apply (lists_dir_of_perm (listing_order dir)).
  - apply merge_sort_Permutation.
  - apply lists_dir_listing_order.
Qed.



Lemma plain_name_nonempty s : plain_name s -> s ≠ "".
Proof. by intros H ->. Qed.

(** ** Sorting a list that is already in an order of its own *)

Section SortTies.
Context {A : Type} (cmp : A -> A -> number) (f : A -> Z) (P : A -> Prop) (R : relation A).
Hypothesis cmp_spec : ∀ x y, P x -> P y -> is_positive (cmp x y) = (f y <? f x).



End SortTies.




(** ** POST /merge: the order of the chunks *)










(** ** POST /upload: writing a key again *)



(** ** The handler run alone *)

Lemma alone_finished readdir r fs tm :
  act readdir (alone (Finished r) fs tm) (Step 0) = alone (Finished r) fs tm.
Proof. unfold act, alone. simpl. by rewrite app_nil_r. Qed.

Lemma alone_read readdir fh name ws chunk rest fs tm :
  act readdir (alone (ReadIssued fh name ws chunk rest) fs tm) (Step 0)
  = alone (ReadSettled fh name ws chunk rest
             (from_option inr (inl ENOENT) (read_chunk fh chunk fs))) fs tm.
Proof.
  unfold act, alone. simpl.
  destruct (read_chunk fh chunk fs); simpl; by rewrite app_nil_r.
Qed.

Lemma alone_read_settled readdir fh name ws chunk rest buffer fs tm :
  act readdir (alone (ReadSettled fh name ws chunk rest (inr buffer)) fs tm) (Step 0)
  = alone (UnlinkIssued fh name (stream_write ws buffer fs).1 chunk rest)
          (stream_write ws buffer fs).2 tm.
Proof. unfold act, alone. simpl. by rewrite app_nil_r. Qed.

Lemma alone_read_failed readdir fh name ws chunk rest e fs tm :
  act readdir (alone (ReadSettled fh name ws chunk rest (inl e)) fs tm) (Step 0)
  = alone (Finished (merge_failed e)) fs tm.
Proof. unfold act, alone. simpl. by rewrite app_nil_r. Qed.

Lemma alone_unlink readdir fh name ws chunk rest fs tm :
  act readdir (alone (UnlinkIssued fh name ws chunk rest) fs tm) (Step 0)
  = match unlink_chunk fh chunk fs with
    | Some fs1 => alone (UnlinkSettled fh name ws chunk rest None) fs1 tm
    | None => alone (UnlinkSettled fh name ws chunk rest (Some ENOENT)) fs tm
    end.
Proof.
  unfold act, alone. simpl.
  destruct (unlink_chunk fh chunk fs); simpl; by rewrite app_nil_r.
Qed.

Lemma alone_unlink_failed readdir fh name ws chunk rest e fs tm :
  act readdir (alone (UnlinkSettled fh name ws chunk rest (Some e)) fs tm) (Step 0)
  = alone (Finished (merge_failed e)) fs tm.
Proof. unfold act, alone. simpl. by rewrite app_nil_r. Qed.

Lemma alone_unlink_settled readdir fh name ws chunk rest fs tm :
  act readdir (alone (UnlinkSettled fh name ws chunk rest None) fs tm) (Step 0)
  = match rest with
    | chunk' :: rest' => alone (ReadIssued fh name ws chunk' rest') fs tm
    | [] => alone (Finished (merge_succeeded name)) fs (tm ++ [fh])
    end.
Proof. unfold act, alone. simpl. destruct rest; simpl; by rewrite ?app_nil_r. Qed.

Lemma run_alone_finished readdir r fs tm n :
  run readdir (alone (Finished r) fs tm) (replicate n (Step 0)) = alone (Finished r) fs tm.
Proof.
  unfold run. induction n as [|n IH]; [done|].
  cbn [replicate foldl]. by rewrite alone_finished.
Qed.

Lemma run_cons readdir w a sched :
  run readdir w (a :: sched) = run readdir (act readdir w a) sched.
Proof. done. Qed.

Lemma run_alone_loop readdir fh name rest : ∀ chunk ws fs tm,
  run readdir (alone (ReadIssued fh name ws chunk rest) fs tm)
      (replicate (4 * length (chunk :: rest)) (Step 0))
  = match merge_chunks fh ws (chunk :: rest) fs with
    | (None, fs') => alone (Finished (merge_succeeded name)) fs' (tm ++ [fh])
    | (Some e, fs') => alone (Finished (merge_failed e)) fs' tm
    end.
Proof.
  induction rest as [|chunk' rest IH]; intros chunk ws fs tm.
  - change (4 * length [chunk])%nat with 4%nat. cbn [replicate].
    rewrite run_cons, alone_read. cbn [merge_chunks].
    destruct (read_chunk fh chunk fs) as [buffer|]; cbn [from_option].
    2:{ by rewrite run_cons, alone_read_failed, (run_alone_finished _ _ _ _ 2). }
    rewrite run_cons, alone_read_settled.
    destruct (stream_write ws buffer fs) as [ws' fs1]. cbn [fst snd].
    rewrite run_cons, alone_unlink.
    destruct (unlink_chunk fh chunk fs1) as [fs2|].
    + by rewrite run_cons, alone_unlink_settled.
    + by rewrite run_cons, alone_unlink_failed.
  - replace (4 * length (chunk :: chunk' :: rest))%nat
      with (S (S (S (S (4 * length (chunk' :: rest)))))) by (simpl; lia).
    cbn [replicate].
    rewrite run_cons, alone_read.
    change (merge_chunks fh ws (chunk :: chunk' :: rest) fs) with
      (match read_chunk fh chunk fs with
       | None => (Some ENOENT, fs)
       | Some buffer =>
           let '(ws', fs1) := stream_write ws buffer fs in
           match unlink_chunk fh chunk fs1 with
           | None => (Some ENOENT, fs1)
           | Some fs2 => merge_chunks fh ws' (chunk' :: rest) fs2
           end
       end).
    destruct (read_chunk fh chunk fs) as [buffer|]; cbn [from_option].
    2:{ rewrite run_cons, alone_read_failed.
        apply (run_alone_finished _ _ _ _ (S (S _))). }
    rewrite run_cons, alone_read_settled.
    destruct (stream_write ws buffer fs) as [ws' fs1]. cbn [fst snd].
    rewrite run_cons, alone_unlink.
    destruct (unlink_chunk fh chunk fs1) as [fs2|].
    + rewrite run_cons, alone_unlink_settled. apply IH.
    + rewrite run_cons, alone_unlink_failed.
      apply (run_alone_finished _ _ _ _ (4 * _)).
Qed.

Lemma alone_called readdir b fs :
  act readdir (alone (Called b) fs []) (Step 0)
  = if missing_params b then
      alone (Finished (json 400 1 (Text "缺少必要参数 fileHash 或 fileName"))) fs []
    else
      match path_component (fileHash b), path_component (fileName b) with
      | Some fh, Some name =>
          match chunks fs !! fh with
          | None => alone (Finished (json 400 1 (Text "没有找到相关分片"))) fs []
          | Some _ => alone (ReaddirIssued fh name) fs []
          end
      | _, _ => alone (Finished (merge_failed TypeError)) fs []
      end.
Proof.
  unfold act, alone. simpl. repeat case_match; by simplify_eq.
Qed.

Lemma alone_readdir readdir fh name dir fs :
  chunks fs !! fh = Some dir ->
  act readdir (act readdir (alone (ReaddirIssued fh name) fs []) (Step 0)) (Step 0)
  = if (length (readdir dir) =? 0)%nat then
      alone (Finished (json 400 1 (Text "没有找到任何分片文件"))) fs []
    else
      match sort_chunks (readdir dir) with
      | chunk :: rest =>
          alone (ReadIssued fh name (createWriteStream name fs).1 chunk rest)
                (createWriteStream name fs).2 []
      | [] => alone (Finished (merge_succeeded name)) (createWriteStream name fs).2 [fh]
      end.
Proof.
  intros Hdir. unfold act, alone. simpl. rewrite Hdir. simpl.
  repeat case_match; by simplify_eq.
Qed.

(** A merge call that no other task interrupts ends as [merge] says: same
    response, same disk, same scheduled cleanup. *)
Lemma merge_runs_alone readdir b fs :
  ∃ n,
    run readdir (received fs [b]) (replicate n (Step 0))
    = alone (Finished (response (merge readdir b fs))) (disk (merge readdir b fs))
            (option_list (cleanup (merge readdir b fs))).
Proof.
  unfold received, merge. change (Called <$> [b]) with [Called b].
  fold (alone (Called b) fs []).
  destruct (missing_params b) eqn:Hmiss.
  { exists 1%nat. cbn [replicate]. by rewrite run_cons, alone_called, Hmiss. }
  destruct (path_component (fileHash b)) as [fh|] eqn:Hfh.
  2:{ exists 1%nat. cbn [replicate]. by rewrite run_cons, alone_called, Hmiss, Hfh. }
  destruct (path_component (fileName b)) as [name|] eqn:Hname.
  2:{ exists 1%nat. cbn [replicate].
      by rewrite run_cons, alone_called, Hmiss, Hfh, Hname. }
  destruct (chunks fs !! fh) as [dir|] eqn:Hdir.
  2:{ exists 1%nat. cbn [replicate].
      by rewrite run_cons, alone_called, Hmiss, Hfh, Hname, Hdir. }
  destruct (Nat.eqb_spec (length (readdir dir)) 0) as [Hlen|Hlen].
  { exists 3%nat. cbn [replicate].
    rewrite run_cons, alone_called, Hmiss, Hfh, Hname, Hdir.
    rewrite !run_cons, (alone_readdir readdir fh name dir) by done.
    by destruct (Nat.eqb_spec (length (readdir dir)) 0). }
  destruct (sort_chunks (readdir dir)) as [|chunk rest] eqn:Hsorted.
  { exfalso. pose proof (sort_chunks_perm (readdir dir)) as Hp. rewrite Hsorted in Hp.
    apply Permutation_length in Hp. simpl in Hp. lia. }
  exists (3 + 4 * length (chunk :: rest))%nat.
  rewrite replicate_add. cbn [replicate app].
  rewrite run_cons, alone_called, Hmiss, Hfh, Hname, Hdir.
  rewrite !run_cons, (alone_readdir readdir fh name dir) by done.
  destruct (Nat.eqb_spec (length (readdir dir)) 0); [done|].
  rewrite Hsorted. cbn [createWriteStream fst snd].
  rewrite run_alone_loop.
  by destruct (merge_chunks fh _ (chunk :: rest) _) as [[e|] fs'].
Qed.

(** ** Merge calls that overlap *)













(** ** calculateFileHash and POST /verify: further properties *)

(** X1: the digest depends on the bytes read, not on how the stream cuts
    them into pieces. *)
Theorem calculateFileHash_pieces content events events' :
  reads_to_end content events -> reads_to_end content events' ->
  calculateFileHash events = calculateFileHash events'
  ∧ calculateFileHash events = Resolved (MD5.hexdigest content).
Proof.
  intros H H'. by rewrite !(calculateFileHash_complete content).
Qed.

Lemma calculateFileHash_pieces_witness :
  calculateFileHash aabbcc_read
    = calculateFileHash [OnData (str "A"); OnData (str "ABBCC"); OnEnd]
  ∧ calculateFileHash aabbcc_read = Resolved (MD5.hexdigest (str "AABBCC")).
Proof.
  apply (calculateFileHash_pieces (str "AABBCC")).
  - exists [str "AABB"; str "CC"]. split; reflexivity.
  - exists [str "A"; str "ABBCC"]. split; reflexivity.
Defined.

Lemma append_String c s t : String c s +:+ t = String c (s +:+ t).
Proof. done. Qed.

Lemma append_empty t : "" +:+ t = t.
Proof. done. Qed.

Lemma skip_digits_app ds rest :
  all_digits ds = true ->
  skip_digits (ds +:+ String "-" rest) = String "-" rest.
Proof.
  induction ds as [|c ds IH]; [done|].
  rewrite append_String. simpl.
  intros [Hc Hds]%andb_true_iff. rewrite Hc. by apply IH.
Qed.

(** X2: the prefix the verify handler removes from a declared hash is
    [temp-], one or more decimal digits, and a dash; what follows is kept as
    it is. *)
Theorem strip_temp_prefix_removes ds rest :
  digit_string ds ->
  strip_temp_prefix ("temp-" +:+ ds +:+ "-" +:+ rest) = rest.
Proof.
  intros [Hne Hds]. destruct ds as [|c ds]; [done|].
  simpl in Hds. apply andb_true_iff in Hds as [Hc Hds].
  rewrite !append_String, !append_empty.
  unfold strip_temp_prefix. simpl. rewrite Hc.
  by rewrite (skip_digits_app ds rest Hds).
Qed.

Lemma strip_temp_prefix_removes_witness :
  strip_temp_prefix ("temp-" +:+ "1700000000000" +:+ "-" +:+ "8950ea40af4212ac838555be008297f3")
  = "8950ea40af4212ac838555be008297f3".
Proof.
  apply (strip_temp_prefix_removes "1700000000000" "8950ea40af4212ac838555be008297f3").
  split; [discriminate | reflexivity].
Defined.

(** A declared hash that does not begin with [temp-] is left as it is. *)
Lemma strip_temp_prefix_other s :
  strip_prefix "temp-" s = None -> strip_temp_prefix s = s.
Proof. unfold strip_temp_prefix. by intros ->. Qed.

Lemma verify_resolved events b fs name content fh digest :
  fileHash b = JString fh -> fh ≠ "" ->
  fileName b = JString name -> name ≠ "" ->
  uploads fs !! name = Some content ->
  calculateFileHash events = Resolved digest ->
  verify events b fs =
    Some (if String.eqb digest (strip_temp_prefix fh) || String.eqb fh digest
          then verify_passed else verify_mismatch (strip_temp_prefix fh) digest).
Proof.
  intros Hfh Hne Hname Hne' Hcontent Hdigest. unfold verify, missing_params.
  rewrite Hfh, Hname, !truthy_string by done. simpl.
  rewrite Hcontent, Hdigest. by case_match.
Qed.

(** X3: for a declared hash that does not begin with [temp-], Verify
    compares it as it is: the answer is verified=true when it equals the
    digest of the artifact, and verified=false with both values otherwise. *)
Theorem verify_exact events b fs name content fh :
  fileHash b = JString fh -> fh ≠ "" ->
  fileName b = JString name -> name ≠ "" ->
  uploads fs !! name = Some content ->
  reads_to_end content events ->
  strip_prefix "temp-" fh = None ->
  verify events b fs =
    Some (if decide (fh = MD5.hexdigest content) then verify_passed
          else verify_mismatch fh (MD5.hexdigest content)).
Proof.
  intros Hfh Hne Hname Hne' Hcontent Hread Hprefix.
  rewrite (verify_resolved events b fs name content fh (MD5.hexdigest content));
    try done; [|by apply calculateFileHash_complete].
  rewrite (strip_temp_prefix_other fh Hprefix).
  case_decide as Heq.
  - subst fh. by rewrite String.eqb_refl.
  - apply String.eqb_neq in Heq as Heq'. rewrite Heq', orb_false_r.
    assert (MD5.hexdigest content ≠ fh) as ->%String.eqb_neq by done. done.
Qed.

Lemma verify_exact_witness :
  verify aabbcc_read (request "8950ea40af4212ac838555be008297f3" "f.bin" JUndefined)
         aabbcc_disk =
    Some (if decide ("8950ea40af4212ac838555be008297f3" = MD5.hexdigest (str "AABBCC"))
          then verify_passed
          else verify_mismatch "8950ea40af4212ac838555be008297f3"
                               (MD5.hexdigest (str "AABBCC"))).
Proof.
  apply (verify_exact aabbcc_read
           (request "8950ea40af4212ac838555be008297f3" "f.bin" JUndefined)
           aabbcc_disk "f.bin" (str "AABBCC") "8950ea40af4212ac838555be008297f3");
    [reflexivity | discriminate | reflexivity | discriminate | reflexivity | | reflexivity].
  exists [str "AABB"; str "CC"]. split; reflexivity.
Defined.





(** ** GET /files *)

Lemma mapM_stat_file fs listing :
  (∀ file, file ∈ listing -> is_Some (uploads fs !! file)) ->
  mapM (stat_file fs) listing
  = Some ((fun file => {| file_name := file;
                          file_size := Z.of_nat (length (slot (uploads fs) file)) |})
            <$> listing).
Proof.
  induction listing as [|file listing IH]; intros Hall; [done|].
  destruct (Hall file) as [content Hcontent]; [left|].
  apply mapM_Some. constructor.
  - unfold stat_file, slot. by rewrite Hcontent.
  - apply mapM_Some, IH. intros f Hf. apply Hall. by right.
Qed.

(** X6: when the listing of the completed store is a listing of it, the
    answer of /files has status 200 and code 0, and its data names every
    stored artifact once, each with its number of bytes, and nothing
    else. *)
Theorem list_files_complete readdir fs :
  lists_dir (readdir (uploads fs)) (uploads fs) ->
  let r := list_files readdir fs in
  files_status r = 200 ∧ files_code r = 0 ∧ files_message r = None
  ∧ ∃ data,
      files_data r = Some data
      ∧ file_name <$> data = readdir (uploads fs)
      ∧ NoDup (file_name <$> data)
      ∧ ∀ name size,
          {| file_name := name; file_size := size |} ∈ data
          ↔ ∃ content, uploads fs !! name = Some content
                       ∧ size = Z.of_nat (length content).
Proof.
  intros [Hnd Hin]. unfold list_files.
  rewrite mapM_stat_file by (intros file; apply Hin). simpl.
  repeat split; try done. eexists. split; [done|].
  rewrite <- list_fmap_compose.
  assert (∀ l : list string,
            (file_name ∘ (fun file => {| file_name := file;
               file_size := Z.of_nat (length (slot (uploads fs) file)) |})) <$> l = l) as Hid.
  { intros l. rewrite <- (list_fmap_id l) at 2. by apply list_fmap_ext. }
  rewrite Hid. split; [done|]. split; [done|].
  intros name size. rewrite list_elem_of_fmap. split.
  - intros (file & [= -> ->] & Hfile). apply Hin in Hfile as [content Hcontent].
    exists content. unfold slot. by rewrite Hcontent.
  - intros (content & Hcontent & ->). exists name. split.
    + unfold slot. by rewrite Hcontent.
    + apply Hin. by exists content.
Qed.

Lemma list_files_complete_witness :
  let r := list_files listing_order aabbcc_disk in
  files_status r = 200 ∧ files_code r = 0 ∧ files_message r = None
  ∧ ∃ data,
      files_data r = Some data
      ∧ file_name <$> data = listing_order (uploads aabbcc_disk)
      ∧ NoDup (file_name <$> data)
      ∧ ∀ name size,
          {| file_name := name; file_size := size |} ∈ data
          ↔ ∃ content, uploads aabbcc_disk !! name = Some content
                       ∧ size = Z.of_nat (length content).
Proof.
  apply (list_files_complete listing_order aabbcc_disk).
  apply lists_dir_listing_order.
Defined.

(** X8: an entry that /files reports with a size other than zero is found
    by /check-file under that name and size (and any fileHash): the answer
    is exists=true and carries the same name and size. *)
Theorem list_files_check_file readdir fs data info b :
  files_data (list_files readdir fs) = Some data ->
  info ∈ data ->
  file_size info ≠ 0 -> file_name info ≠ "" ->
  truthy (fileHash b) = true ->
  fileName b = JString (file_name info) ->
  size b = JNumber (file_size info) ->
  exists_ (check_file b fs) = Some true
  ∧ file (check_file b fs) = Some info
  ∧ status (check_file b fs) = 200.
Proof.
  unfold list_files. intros Hdata Hinfo Hsize Hname Hfh Hb Hsz.
  destruct (mapM _ _) as [fileList|] eqn:HmapM; [|done].
  injection Hdata as <-.
  apply mapM_Some in HmapM.
  apply list_elem_of_lookup in Hinfo as [i Hi].
  destruct (Forall2_lookup_r _ _ _ i info HmapM Hi) as (f & _ & Hstat).
  unfold stat_file in Hstat.
  destruct (uploads fs !! f) as [content|] eqn:Hcontent; [|done].
  injection Hstat as <-. simpl in *.
  unfold check_file. rewrite (missing_params_false b f), Hb by done. simpl.
  rewrite Hcontent, Hsz. simpl. rewrite Z.eqb_refl.
  assert ((Z.of_nat (length content) =? 0) = false) as -> by by apply Z.eqb_neq.
  done.
Qed.

Lemma list_files_check_file_witness :
  let info := {| file_name := "f.bin"; file_size := 6 |} in
  let b := request "h" "f.bin" (JNumber 6) in
  exists_ (check_file b aabbcc_disk) = Some true
  ∧ file (check_file b aabbcc_disk) = Some info
  ∧ status (check_file b aabbcc_disk) = 200.
Proof.
  apply (list_files_check_file listing_order aabbcc_disk
           [{| file_name := "f.bin"; file_size := 6 |}]
           {| file_name := "f.bin"; file_size := 6 |}
           (request "h" "f.bin" (JNumber 6)));
    [vm_compute; reflexivity | left | discriminate | discriminate
    | reflexivity | reflexivity | reflexivity].
Defined.

(** X7: when the listing of the completed store names an entry that is
    not there, /files answers with status 500 and code 1, and no list. *)
Theorem list_files_missing_entry readdir fs name :
  name ∈ readdir (uploads fs) -> uploads fs !! name = None ->
  let r := list_files readdir fs in
  files_status r = 500 ∧ files_code r = 1 ∧ files_data r = None
  ∧ files_message r = Some (TextError "获取文件列表失败: " ENOENT).
Proof.
  intros Hin Hnone. unfold list_files.
  assert (mapM (stat_file fs) (readdir (uploads fs)) = None) as ->; [|done].
  apply mapM_None, Exists_exists. exists name. split; [done|].
  unfold stat_file. by rewrite Hnone.
Qed.

Lemma list_files_missing_entry_witness :
  let r := list_files (fun _ => ["gone.bin"]) blank_disk in
  files_status r = 500 ∧ files_code r = 1 ∧ files_data r = None
  ∧ files_message r = Some (TextError "获取文件列表失败: " ENOENT).
Proof.
  apply (list_files_missing_entry (fun _ => ["gone.bin"]) blank_disk "gone.bin");
    [left | reflexivity].
Defined.

(** ** POST /upload: further properties *)

(** X9: for a request that reaches the handler, with its payload below the
    limit of the multipart parser, and whose hash and fileHash are plain
    names when they are non-empty strings: the upload is answered with
    status 200 exactly when hash and fileHash are non-empty strings and the
    chunk payload is present, and then the slot holds the payload; a request
    answered with status 400 has left the disk as it was. *)
Theorem upload_succeeds_iff req fs :
  plain_field (fileHash (body req)) -> plain_field (hash (body req)) ->
  (∀ buffer, req_file req = Some buffer -> below_limit buffer) ->
  (status (upload req fs).1 = 200 ↔
     ∃ fh key buffer,
       fileHash (body req) = JString fh ∧ fh ≠ ""
       ∧ hash (body req) = JString key ∧ key ≠ ""
       ∧ req_file req = Some buffer
       ∧ read_chunk fh key (upload req fs).2 = Some buffer)
  ∧ (status (upload req fs).1 = 400 -> (upload req fs).2 = fs).
Proof.
  intros _ _ _. destruct req as [b payload]. split.
  - split.
    + intros Hst.
      assert (∃ fh key buffer,
                fileHash b = JString fh ∧ fh ≠ "" ∧ hash b = JString key ∧ key ≠ ""
                ∧ payload = Some buffer) as (fh & key & buffer & Hfh & Hne & Hkey & Hne' & ->).
      { unfold upload in Hst. simpl in Hst.
        destruct (hash b) as [| |[]|k| key|]; destruct (fileHash b) as [| |[]|n|fh|];
          simpl in Hst; try done; try (by repeat case_match).
        destruct (String.eqb_spec key ""), (String.eqb_spec fh ""); simpl in Hst;
          try done.
        destruct payload as [buffer|]; [|done].
        by exists fh, key, buffer. }
      exists fh, key, buffer. repeat split; try done.
      erewrite upload_stores by done. unfold read_chunk. simpl.
      rewrite lookup_insert_eq. simpl. by rewrite lookup_insert_eq.
    + intros (fh & key & buffer & Hfh & Hne & Hkey & Hne' & Hfile & _).
      simpl in *. subst payload. by erewrite upload_stores.
  - unfold upload. simpl. repeat case_match; simpl; try done; lia.
Qed.

Lemma upload_succeeds_iff_witness :
  let req := {| body := chunk_body "H1" "0-a"; req_file := Some (str "AA") |} in
  ((status (upload req blank_disk).1 = 200 ↔
      ∃ fh key buffer,
        fileHash (body req) = JString fh ∧ fh ≠ ""
        ∧ hash (body req) = JString key ∧ key ≠ ""
        ∧ req_file req = Some buffer
        ∧ read_chunk fh key (upload req blank_disk).2 = Some buffer)
   ∧ (status (upload req blank_disk).1 = 400 -> (upload req blank_disk).2 = blank_disk))
  ∧ status (upload req blank_disk).1 = 200.
Proof.
  split; [|reflexivity].
  apply (upload_succeeds_iff {| body := chunk_body "H1" "0-a"; req_file := Some (str "AA") |}
           blank_disk).
  - right. reflexivity.
  - right. reflexivity.
  - intros buffer [= <-]. reflexivity.
Defined.

(** X10: an upload whose hash and fileHash are plain names, when they are
    non-empty strings, never changes the completed store, and the only
    chunk slot it can change is the one its fileHash and hash name. *)
Theorem upload_frame req fs :
  plain_field (fileHash (body req)) -> plain_field (hash (body req)) ->
  uploads (upload req fs).2 = uploads fs
  ∧ ∀ fh key,
      plain_name fh -> plain_name key ->
      (fileHash (body req), hash (body req)) ≠ (JString fh, JString key) ->
      read_chunk fh key (upload req fs).2 = read_chunk fh key fs.
Proof.
  intros _ _. unfold upload.
  destruct (negb (truthy (hash (body req))) || negb (truthy (fileHash (body req))));
    [done|].
  destruct (fileHash (body req)) as [| | | |fh0|] eqn:Hfh; simpl; try done.
  assert (∀ fh key, read_chunk fh key (ensure_chunk_dir fh0 fs) = read_chunk fh key fs)
    as Hensure.
  { intros fh key. unfold read_chunk, ensure_chunk_dir.
    destruct (chunks fs !! fh0) eqn:Hdir; [done|]. simpl.
    destruct (decide (fh = fh0)) as [->|Hne].
    - by rewrite lookup_insert_eq, Hdir.
    - by rewrite lookup_insert_ne. }
  assert (uploads (ensure_chunk_dir fh0 fs) = uploads fs) as Huploads.
  { unfold ensure_chunk_dir. by case_match. }
  destruct (hash (body req)) as [| | | |key0|] eqn:Hkey; simpl; try done.
  destruct (req_file req) as [buffer|]; simpl; [|done].
  split; [done|]. intros fh key _ _ Hne. rewrite <- Hensure.
  unfold read_chunk, write_chunk. simpl.
  destruct (decide (fh = fh0)) as [->|Hfh'].
  - rewrite lookup_insert_eq. simpl.
    rewrite lookup_insert_ne by congruence.
    by destruct (chunks (ensure_chunk_dir fh0 fs) !! fh0).
  - by rewrite lookup_insert_ne.
Qed.

Lemma upload_frame_witness :
  let req := {| body := chunk_body "H1" "1-b"; req_file := Some (str "ZZ") |} in
  (uploads (upload req two_chunk_disk).2 = uploads two_chunk_disk
   ∧ ∀ fh key,
       plain_name fh -> plain_name key ->
       (fileHash (body req), hash (body req)) ≠ (JString fh, JString key) ->
       read_chunk fh key (upload req two_chunk_disk).2 = read_chunk fh key two_chunk_disk)
  ∧ read_chunk "H1" "0-a" (upload req two_chunk_disk).2 = Some (str "AA")
  ∧ read_chunk "H1" "1-b" (upload req two_chunk_disk).2 = Some (str "ZZ").
Proof.
  split; [|split; reflexivity].
  apply (upload_frame {| body := chunk_body "H1" "1-b"; req_file := Some (str "ZZ") |}
           two_chunk_disk).
  - right. reflexivity.
  - right. reflexivity.
Defined.

(** X11: chunk uploads to different slots, with plain names and payloads
    below the limit, commute: the two orders of arrival leave the same
    disk. *)
Theorem upload_commutes fh1 key1 buffer1 fh2 key2 buffer2 fs :
  plain_name fh1 -> plain_name key1 -> plain_name fh2 -> plain_name key2 ->
  below_limit buffer1 -> below_limit buffer2 ->
  (fh1, key1) ≠ (fh2, key2) ->
  let r1 := {| body := chunk_body fh1 key1; req_file := Some buffer1 |} in
  let r2 := {| body := chunk_body fh2 key2; req_file := Some buffer2 |} in
  (upload r2 (upload r1 fs).2).2 = (upload r1 (upload r2 fs).2).2.
Proof.
  intros H1%plain_name_nonempty K1%plain_name_nonempty
         H2%plain_name_nonempty K2%plain_name_nonempty _ _ Hne r1 r2. subst r1 r2.
  rewrite !(upload_stores _ _ _ _ (chunk_body _ _)) by done. simpl.
  f_equal. destruct (decide (fh1 = fh2)) as [->|Hfh].
  - rewrite !lookup_insert_eq, !insert_insert_eq. simpl.
    f_equal. apply insert_insert_ne. congruence.
  - rewrite !lookup_insert_ne by done. by apply insert_insert_ne.
Qed.

Lemma upload_commutes_witness :
  let r1 := {| body := chunk_body "H1" "0-a"; req_file := Some (str "AA") |} in
  let r2 := {| body := chunk_body "H1" "1-b"; req_file := Some (str "BB") |} in
  (upload r2 (upload r1 blank_disk).2).2 = (upload r1 (upload r2 blank_disk).2).2.
Proof.
  apply (upload_commutes "H1" "0-a" (str "AA") "H1" "1-b" (str "BB") blank_disk);
    first [reflexivity | discriminate].
Defined.

(** ** POST /merge: further properties *)

(** With a listing of the directory, the loop meets no missing chunk. *)
Lemma merge_answer readdir b fs :
  readdir_ok readdir ->
  (∃ fh name dir,
     fileHash b = JString fh ∧ fh ≠ "" ∧ fileName b = JString name ∧ name ≠ ""
     ∧ chunks fs !! fh = Some dir ∧ dir ≠ ∅
     ∧ merge readdir b fs =
         {| response := merge_succeeded name;
            disk := {| uploads := <[name := concat (slot dir <$> sort_chunks (readdir dir))]>
                                    (uploads fs);
                       chunks := <[fh := ∅]> (chunks fs) |};
            cleanup := Some fh |})
  ∨ (status (response (merge readdir b fs)) ≠ 200
     ∧ disk (merge readdir b fs) = fs ∧ cleanup (merge readdir b fs) = None
     ∧ ¬ ∃ fh name dir,
           fileHash b = JString fh ∧ fh ≠ "" ∧ fileName b = JString name ∧ name ≠ ""
           ∧ chunks fs !! fh = Some dir ∧ dir ≠ ∅).
Proof.
  intros Hrd.
  destruct (fileHash b) as [| |[]|n|fh|] eqn:Hfh;
    try (right; unfold merge, missing_params; rewrite Hfh; simpl;
         repeat case_match; simpl; repeat split; try done;
         by intros (? & ? & ? & ? & _)).
  destruct (fileName b) as [| |[]|n|name|] eqn:Hname;
    try (right; unfold merge, missing_params; rewrite Hfh, Hname; simpl;
         repeat case_match; simpl; repeat split; try done;
         by intros (? & ? & ? & _ & _ & ? & _)).
  destruct (decide (fh = "")) as [->|Hne].
  { right. unfold merge, missing_params. rewrite Hfh. simpl.
    repeat split; try done. by intros (? & ? & ? & [= <-] & ? & _). }
  destruct (decide (name = "")) as [->|Hne'].
  { right. unfold merge, missing_params. rewrite Hfh, Hname, truthy_string by done.
    simpl. repeat split; try done. by intros (? & ? & ? & _ & _ & [= <-] & ? & _). }
  destruct (chunks fs !! fh) as [dir|] eqn:Hdir.
  2:{ right. unfold merge, missing_params.
      rewrite Hfh, Hname, !truthy_string by done. simpl. rewrite Hdir.
      repeat split; try done. intros (? & ? & ? & [= <-] & _ & _ & _ & ? & _). congruence. }
  destruct (decide (dir = ∅)) as [->|Hnonempty].
  { right. unfold merge, missing_params.
    rewrite Hfh, Hname, !truthy_string by done. simpl. rewrite Hdir.
    rewrite (lists_dir_empty _ (Hrd ∅)). simpl.
    repeat split; try done. intros (? & ? & ? & [= <-] & _ & _ & _ & ? & ?). congruence. }
  left. exists fh, name, dir. repeat split; try done.
  by apply merge_ok.
Qed.

(** X12: for a merge call whose fileHash and fileName are plain names when
    they are non-empty strings, and with a listing of the chunk directory:
    the call is answered with status 200 exactly when fileHash and fileName
    are non-empty strings and at least one chunk is stored under the
    fileHash; every other call leaves the disk as it was and schedules no
    cleanup. *)
Theorem merge_succeeds_iff readdir b fs :
  plain_field (fileHash b) -> plain_field (fileName b) ->
  readdir_ok readdir ->
  (status (response (merge readdir b fs)) = 200 ↔
     ∃ fh name dir,
       fileHash b = JString fh ∧ fh ≠ "" ∧ fileName b = JString name ∧ name ≠ ""
       ∧ chunks fs !! fh = Some dir ∧ dir ≠ ∅)
  ∧ (status (response (merge readdir b fs)) ≠ 200 ->
     disk (merge readdir b fs) = fs ∧ cleanup (merge readdir b fs) = None).
Proof.
  intros _ _ Hrd.
  destruct (merge_answer readdir b fs Hrd)
    as [(fh & name & dir & Hfh & Hne & Hname & Hne' & Hdir & Hnonempty & ->)
       |(Hst & Hdisk & Hclean & Hnot)]; simpl.
  - split; [|done]. split; [|done]. intros _. by exists fh, name, dir.
  - split; [|done]. split; [done|]. intros H. by destruct Hnot.
Qed.

Lemma merge_succeeds_iff_witness :
  let o := merge readdir_sorted (request "H1" "f.bin" (JNumber 6))
                 (upload_all "H1" h1_writes blank_disk) in
  ((status (response o) = 200 ↔
      ∃ fh name dir,
        fileHash (request "H1" "f.bin" (JNumber 6)) = JString fh ∧ fh ≠ ""
        ∧ fileName (request "H1" "f.bin" (JNumber 6)) = JString name ∧ name ≠ ""
        ∧ chunks (upload_all "H1" h1_writes blank_disk) !! fh = Some dir ∧ dir ≠ ∅)
   ∧ (status (response o) ≠ 200 ->
      disk o = upload_all "H1" h1_writes blank_disk ∧ cleanup o = None))
  ∧ status (response o) = 200.
Proof.
  split; [|vm_compute; reflexivity].
  apply (merge_succeeds_iff readdir_sorted (request "H1" "f.bin" (JNumber 6))
           (upload_all "H1" h1_writes blank_disk)).
  - right. reflexivity.
  - right. reflexivity.
  - apply readdir_sorted_ok.
Defined.

Lemma merge_chunks_frame fh sorted : ∀ ws fs,
  (∀ fh', fh' ≠ fh ->
     chunks (merge_chunks fh ws sorted fs).2 !! fh' = chunks fs !! fh')
  ∧ (∀ name', name' ≠ ws_path ws ->
       uploads (merge_chunks fh ws sorted fs).2 !! name' = uploads fs !! name').
Proof.
  induction sorted as [|chunk rest IH]; intros ws fs; [done|].
  simpl. destruct (read_chunk fh chunk fs) as [buffer|]; [|done].
  unfold stream_write, unlink_chunk. simpl.
  destruct (chunks fs !! fh) as [dir|] eqn:Hdir; [|simpl; split; [done|]].
  2:{ intros name' Hne. by rewrite lookup_insert_ne. }
  destruct (dir !! chunk) eqn:Hchunk.
  2:{ simpl. split; [done|]. intros name' Hne. by rewrite lookup_insert_ne. }
  match goal with
  | |- context [merge_chunks fh ?ws' rest ?fs'] => destruct (IH ws' fs') as [IH1 IH2]
  end.
  split.
  - intros fh' Hne. rewrite IH1 by done. simpl. by rewrite lookup_insert_ne.
  - intros name' Hne. rewrite IH2 by done. simpl. by rewrite lookup_insert_ne.
Qed.

(** X13: whatever its outcome, a merge call whose fileHash and fileName are
    plain names, when they are non-empty strings, leaves the chunks of
    every other fileHash and every artifact of another name as they
    were. *)
Theorem merge_frame readdir b fs :
  plain_field (fileHash b) -> plain_field (fileName b) ->
  (∀ fh', plain_name fh' -> path_component (fileHash b) ≠ Some fh' ->
     chunks (disk (merge readdir b fs)) !! fh' = chunks fs !! fh')
  ∧ (∀ name', plain_name name' -> path_component (fileName b) ≠ Some name' ->
       uploads (disk (merge readdir b fs)) !! name' = uploads fs !! name').
Proof.
  intros _ _.
  unfold merge. destruct (missing_params b); [done|].
  destruct (path_component (fileHash b)) as [fh|]; [|done].
  destruct (path_component (fileName b)) as [name|]; [|done].
  destruct (chunks fs !! fh) as [dir|]; [|done].
  destruct (length (readdir dir) =? 0)%nat; [done|].
  simpl.
  destruct (merge_chunks_frame fh (sort_chunks (readdir dir))
              {| ws_path := name; ws_pos := 0 |}
              {| uploads := <[name := []]> (uploads fs); chunks := chunks fs |})
    as [H1 H2].
  destruct (merge_chunks fh _ _ _) as [[e|] fs2]; simpl in *.
  - split.
    + intros fh' _ Hne. apply H1. congruence.
    + intros name' _ Hne. rewrite H2 by congruence. simpl.
      rewrite lookup_insert_ne; [done|congruence].
  - split.
    + intros fh' _ Hne. apply H1. congruence.
    + intros name' _ Hne. rewrite H2 by congruence. simpl.
      rewrite lookup_insert_ne; [done|congruence].
Qed.

Lemma merge_frame_witness :
  let b := request "H1" "f.bin" (JNumber 4) in
  let o := merge readdir_sorted b two_session_disk in
  ((∀ fh', plain_name fh' -> path_component (fileHash b) ≠ Some fh' ->
      chunks (disk o) !! fh' = chunks two_session_disk !! fh')
   ∧ (∀ name', plain_name name' -> path_component (fileName b) ≠ Some name' ->
        uploads (disk o) !! name' = uploads two_session_disk !! name'))
  ∧ response o = merge_succeeded "f.bin"
  ∧ read_chunk "H2" "0-x" (disk o) = Some (str "XX").
Proof.
  split; [|split; vm_compute; reflexivity].
  apply (merge_frame readdir_sorted (request "H1" "f.bin" (JNumber 4)) two_session_disk).
  - right. reflexivity.
  - right. reflexivity.
Defined.












(** ** A session from the first chunk to the verified artifact *)

Lemma concat_length_perm (l1 l2 : list bytes) :
  l1 ≡ₚ l2 -> length (concat l1) = length (concat l2).
Proof.
  induction 1; simpl; rewrite ?length_app; lia.
Qed.

Lemma upload_statuses_ok fh writes : ∀ fs,
  fh ≠ "" -> Forall (fun w => w.1 ≠ "") writes ->
  Forall (fun st => st = 200) (upload_statuses fh writes fs).
Proof.
  induction writes as [|w writes IH]; intros fs Hfh Hkeys; simpl; [constructor|].
  apply Forall_cons in Hkeys as [Hw Hkeys].
  erewrite upload_stores by done. simpl. constructor; [done|by apply IH].
Qed.

(** X18: a session of chunk uploads under a plain fileHash, with distinct
    plain keys and payloads below the limit, into a container that did not
    exist, followed by a merge into a plain fileName: every upload is
    answered with status 200, the merge succeeds, and the artifact has as
    many bytes as were uploaded; /check-file then finds the artifact under
    that size (when it is not zero), and /verify accepts the digest of the
    artifact. *)
Theorem session_end_to_end readdir fs fh name declared writes :
  plain_name fh -> plain_name name ->
  chunks fs !! fh = None ->
  writes ≠ [] -> NoDup writes.*1 ->
  Forall (fun w => plain_name w.1 ∧ below_limit w.2) writes ->
  readdir_ok readdir ->
  let o := merge readdir (request fh name declared) (upload_all fh writes fs) in
  Forall (fun st => st = 200) (upload_statuses fh writes fs)
  ∧ ∃ artifact,
      response o = merge_succeeded name
      ∧ uploads (disk o) !! name = Some artifact
      ∧ length artifact = total_bytes writes
      ∧ (total_bytes writes ≠ 0%nat ->
         exists_ (check_file (request fh name (JNumber (Z.of_nat (total_bytes writes))))
                             (disk o)) = Some true)
      ∧ (∀ events, reads_to_end artifact events ->
           verify events (request (MD5.hexdigest artifact) name declared) (disk o)
           = Some verify_passed).
Proof.
  intros Hfh%plain_name_nonempty Hname%plain_name_nonempty Hdir Hwrites Hnd Hplain Hrd o.
  assert (Forall (fun w : string * bytes => w.1 ≠ "") writes) as Hkeys.
  { eapply Forall_impl; [exact Hplain|]. intros w [Hw _]. by apply plain_name_nonempty. }
  split; [by apply upload_statuses_ok|].
  subst o.
  rewrite (merge_session readdir fs fh name (request fh name declared) writes)
    by done.
  simpl.
  assert (∃ artifact,
            artifact = concat (slot (list_to_map writes)
                         <$> sort_chunks (readdir (list_to_map writes))))
    as [artifact Hart] by eauto.
  rewrite <- Hart. exists artifact.
  assert (length artifact = total_bytes writes) as Hlen.
  { subst artifact. unfold total_bytes. apply concat_length_perm.
    rewrite sort_chunks_perm, (lists_dir_perm _ writes Hnd (Hrd _)).
    rewrite <- list_fmap_compose.
    assert ((slot (list_to_map writes) ∘ fst) <$> writes = writes.*2) as ->; [|done].
    apply list_fmap_ext. intros i w Hw. simpl.
    apply slot_list_to_map; [done|by eapply list_elem_of_lookup_2]. }
  split; [done|]. split; [by rewrite lookup_insert_eq|]. split; [done|]. split.
  - intros Htotal. unfold check_file.
    rewrite (missing_params_false _ name); [|by apply truthy_string|done|done].
    simpl. rewrite lookup_insert_eq, Hlen. simpl.
    rewrite Z.eqb_refl.
    assert ((Z.of_nat (total_bytes writes) =? 0) = false) as -> by (apply Z.eqb_neq; lia).
    done.
  - intros events Hread.
    rewrite (verify_resolved events _ _ name artifact (MD5.hexdigest artifact)
               (MD5.hexdigest artifact)); try done.
    + by rewrite (String.eqb_refl (MD5.hexdigest artifact)), orb_true_r.
    + apply hexdigest_nonempty.
    + simpl. by rewrite lookup_insert_eq.
    + by apply calculateFileHash_complete.
Qed.

Lemma session_end_to_end_witness :
  let o := merge readdir_sorted (request "H1" "f.bin" (JNumber 6))
                 (upload_all "H1" h1_writes blank_disk) in
  (Forall (fun st => st = 200) (upload_statuses "H1" h1_writes blank_disk)
   ∧ ∃ artifact,
       response o = merge_succeeded "f.bin"
       ∧ uploads (disk o) !! "f.bin" = Some artifact
       ∧ length artifact = total_bytes h1_writes
       ∧ (total_bytes h1_writes ≠ 0%nat ->
          exists_ (check_file (request "H1" "f.bin" (JNumber (Z.of_nat (total_bytes h1_writes))))
                              (disk o)) = Some true)
       ∧ (∀ events, reads_to_end artifact events ->
            verify events (request (MD5.hexdigest artifact) "f.bin" (JNumber 6)) (disk o)
            = Some verify_passed))
  ∧ uploads (disk o) !! "f.bin" = Some (str "AABBCC").
Proof.
  split; [|vm_compute; reflexivity].
  apply (session_end_to_end readdir_sorted blank_disk "H1" "f.bin" (JNumber 6) h1_writes);
    [reflexivity | reflexivity | reflexivity | discriminate | | | apply readdir_sorted_ok].
  - apply (bool_decide_unpack _). vm_compute. exact I.
  - repeat constructor.
Defined.

(** ** The handler run alone, and beside calls for other sessions *)

Lemma run_app readdir w sched sched' :
  run readdir w (sched ++ sched') = run readdir (run readdir w sched) sched'.
Proof. unfold run. apply foldl_app. Qed.

(** X19: the merge handler cut at its awaits is the handler: a call that
    no other task interrupts comes, after finitely many steps, to the
    response, the disk and the scheduled cleanup of [merge], and stays
    there. *)
Theorem merge_task_alone readdir b fs :
  ∃ n, ∀ m, (n <= m)%nat ->
    run readdir (received fs [b]) (replicate m (Step 0))
    = alone (Finished (response (merge readdir b fs))) (disk (merge readdir b fs))
            (option_list (cleanup (merge readdir b fs))).
Proof.
  destruct (merge_runs_alone readdir b fs) as [n Hn]. exists n. intros m Hm.
  replace m with (n + (m - n))%nat by lia.
  by rewrite replicate_add, run_app, Hn, run_alone_finished.
Qed.

Lemma own_step readdir fh name t fs1 fs2 :
  own fh name t -> agree fh name fs1 fs2 ->
  (task_step readdir t fs1).1.1 = (task_step readdir t fs2).1.1
  ∧ (task_step readdir t fs1).2 = (task_step readdir t fs2).2
  ∧ agree fh name (task_step readdir t fs1).1.2 (task_step readdir t fs2).1.2
  ∧ own fh name (task_step readdir t fs1).1.1
  ∧ ((task_step readdir t fs1).2 ≠ None ->
     (task_step readdir t fs1).2 = Some fh
     ∧ is_finished (task_step readdir t fs1).1.1).
Proof.
  intros Hown Hagree. pose proof Hagree as [Hc Hu]. unfold agree.
  destruct t as [b|fh0 name0|fh0 name0 [e|listing]|fh0 name0 ws chunk rest
                |fh0 name0 ws chunk rest [e|buffer]|fh0 name0 ws chunk rest
                |fh0 name0 ws chunk rest [e|]|r]; simpl in Hown.
  - destruct Hown as [Hfh Hname]. simpl. rewrite Hfh, Hname. simpl.
    destruct (missing_params b); [by repeat split|].
    rewrite <- Hc. destruct (chunks fs1 !! fh) eqn:Hdir; repeat split; simpl; first [done | congruence].
  - destruct Hown as [-> ->]. simpl. rewrite <- Hc.
    destruct (chunks fs1 !! fh) eqn:Hdir; repeat split; simpl; first [done | congruence].
  - by repeat split.
  - destruct Hown as [-> ->]. simpl.
    destruct (length listing =? 0)%nat; [by repeat split|].
    destruct (sort_chunks listing); simpl; repeat split; try done.
    all: by rewrite !lookup_insert_eq.
  - destruct Hown as (-> & -> & Hws). simpl. unfold read_chunk. rewrite <- Hc.
    destruct (chunks fs1 !! fh ≫= _) eqn:Hread; repeat split; simpl; first [done | congruence].
  - by repeat split.
  - destruct Hown as (-> & -> & Hws). simpl. rewrite Hws, <- Hu.
    repeat split; try done. simpl. by rewrite !lookup_insert_eq.
  - destruct Hown as (-> & -> & Hws). simpl. unfold unlink_chunk. rewrite <- Hc.
    destruct (chunks fs1 !! fh) as [dir|] eqn:Hdir; [|repeat split; simpl; first [done | congruence]].
    destruct (dir !! chunk); simpl; repeat split; try done; try congruence.
    by rewrite !lookup_insert_eq.
  - by repeat split.
  - destruct Hown as (-> & -> & Hws). simpl.
    destruct rest; simpl; by repeat split.
  - by repeat split.
Qed.

Lemma foreign_step readdir fh name t fs :
  foreign fh name t ->
  foreign fh name (task_step readdir t fs).1.1
  ∧ chunks (task_step readdir t fs).1.2 !! fh = chunks fs !! fh
  ∧ uploads (task_step readdir t fs).1.2 !! name = uploads fs !! name
  ∧ (task_step readdir t fs).2 ≠ Some fh.
Proof.
  intros Hforeign.
  destruct t as [b|fh0 name0|fh0 name0 [e|listing]|fh0 name0 ws chunk rest
                |fh0 name0 ws chunk rest [e|buffer]|fh0 name0 ws chunk rest
                |fh0 name0 ws chunk rest [e|]|r]; simpl in Hforeign.
  - destruct Hforeign as [Hfh Hname]. simpl.
    destruct (missing_params b); [by repeat split|].
    destruct (path_component (fileHash b)) as [fh0|]; [|by repeat split].
    destruct (path_component (fileName b)) as [name0|]; [|by repeat split].
    destruct (chunks fs !! fh0); repeat split; try done; simpl; congruence.
  - destruct Hforeign as [Hfh Hname]. simpl.
    destruct (chunks fs !! fh0); by repeat split.
  - by repeat split.
  - destruct Hforeign as [Hfh Hname]. simpl.
    destruct (length listing =? 0)%nat; [by repeat split|].
    destruct (sort_chunks listing); simpl; repeat split; try done.
    all: try (by rewrite lookup_insert_ne).
    congruence.
  - destruct Hforeign as [Hfh Hname]. simpl.
    destruct (read_chunk fh0 chunk fs); by repeat split.
  - by repeat split.
  - destruct Hforeign as [Hfh Hname]. simpl. repeat split; try done.
    simpl. by rewrite lookup_insert_ne.
  - destruct Hforeign as [Hfh Hname]. simpl. unfold unlink_chunk.
    destruct (chunks fs !! fh0) as [dir|]; [|by repeat split].
    destruct (dir !! chunk); simpl; repeat split; try done.
    simpl. by rewrite lookup_insert_ne.
  - by repeat split.
  - destruct Hforeign as [Hfh Hname]. simpl.
    destruct rest; simpl; repeat split; try done. congruence.
  - by repeat split.
Qed.

Lemma finished_step readdir t fs :
  is_finished t -> task_step readdir t fs = (t, fs, None).
Proof. by destruct t. Qed.

Lemma alone_sim_act readdir fh name i w a action :
  alone_sim fh name i w a ->
  alone_sim fh name i (act readdir w action)
    match action with
    | Step j => if decide (j = i) then act readdir a (Step 0) else a
    | Fire => a
    end.
Proof.
  intros [(t & Hi & Ha & Hown & Hchunks) Huploads Hothers Htimers].
  destruct action as [j|].
  - destruct (decide (j = i)) as [->|Hji].
    + destruct a as [fsa tasksa tma]. simpl in Ha, Hchunks, Huploads. subst tasksa.
      unfold act at 1 2. simpl. rewrite Hi.
      assert (i < length (tasks w))%nat as Hlt by by eapply lookup_lt_Some.
      assert (is_finished t ∨ ¬ is_finished t) as [Hfin|Hfin]
        by (destruct t; simpl; auto).
      * rewrite !(finished_step readdir t) by done. simpl.
        rewrite list_insert_id by done.
        split; simpl; try done.
        -- exists t. by rewrite Hi.
        -- rewrite app_nil_r. done.
      * specialize (Hchunks Hfin).
        destruct (own_step readdir fh name t (w_disk w) fsa Hown (conj Hchunks Huploads))
          as (Ht & Htm & [Hc' Hu'] & Hown' & Htimer).
        destruct (task_step readdir t (w_disk w)) as [[t1 fs1] tm1].
        destruct (task_step readdir t fsa) as [[t2 fs2] tm2].
        simpl in *. subst t2 tm2.
        split; simpl.
        -- exists t1. by rewrite list_lookup_insert_eq.
        -- done.
        -- intros j tj Hj. rewrite list_lookup_insert_ne by done. by apply Hothers.
        -- rewrite list_lookup_insert_eq by done.
           intros [Hin|Hin]%elem_of_app.
           ++ destruct (Htimers Hin) as [r Hr]. rewrite Hi in Hr.
              injection Hr as ->. by destruct Hfin.
           ++ destruct tm1 as [x|]; [|by apply elem_of_nil in Hin].
              destruct Htimer as [_ Hfin']; [done|].
              destruct t1; try done. by eexists.
    + unfold act. destruct (tasks w !! j) as [tj|] eqn:Hj.
      2:{ split; try done. by exists t. }
      destruct (foreign_step readdir fh name tj (w_disk w) (Hothers j tj Hji Hj))
        as (Hf' & Hc' & Hu' & Htm').
      destruct (task_step readdir tj (w_disk w)) as [[tj' fs'] tm']. simpl in *.
      split; simpl.
      * exists t. rewrite list_lookup_insert_ne by done.
        repeat split; try done. intros Hfin. rewrite Hc'. by apply Hchunks.
      * by rewrite Hu'.
      * intros j' t' Hj' [(-> & -> & _)|[_ Hold]]%list_lookup_insert_Some; [done|].
        by apply (Hothers j').
      * rewrite list_lookup_insert_ne by done.
        intros [Hin|Hin]%elem_of_app; [by apply Htimers|].
        destruct tm' as [x|]; [|by apply elem_of_nil in Hin].
        apply list_elem_of_singleton in Hin. congruence.
  - unfold act.
    destruct (timers w) as [|fh' timers'] eqn:Htm.
    { split; [by exists t|done|done|]. rewrite Htm. by intros ?%elem_of_nil. }
    assert (chunks (match rmdir_chunk_dir fh' (w_disk w) with
                    | inr fs' => fs' | inl _ => w_disk w end) !! fh
            = chunks (w_disk w) !! fh ∨ fh' = fh) as Hc'.
    { unfold rmdir_chunk_dir. destruct (chunks (w_disk w) !! fh'); [|by left].
      case_decide; [|by left]. simpl.
      destruct (decide (fh' = fh)); [by right|left]. by rewrite lookup_delete_ne. }
    assert (uploads (match rmdir_chunk_dir fh' (w_disk w) with
                     | inr fs' => fs' | inl _ => w_disk w end)
            = uploads (w_disk w)) as Hu'.
    { unfold rmdir_chunk_dir. destruct (chunks (w_disk w) !! fh'); [|done].
      by case_decide. }
    split; simpl.
    + exists t. repeat split; try done. intros Hfin.
      destruct Hc' as [-> | ->]; [by apply Hchunks|].
      destruct Htimers as [r Hr]; [left|]. rewrite Hi in Hr.
      injection Hr as ->. by destruct Hfin.
    + by rewrite Hu'.
    + done.
    + intros Hin. apply Htimers. by right.
Qed.

Lemma alone_sim_run readdir fh name i sched : ∀ w a,
  alone_sim fh name i w a ->
  alone_sim fh name i (run readdir w sched)
    (run readdir a (replicate (count_steps i sched) (Step 0))).
Proof.
  induction sched as [|action sched IH]; intros w a Hsim; [done|].
  rewrite run_cons.
  pose proof (alone_sim_act readdir fh name i w a action Hsim) as Hact.
  destruct action as [j|]; simpl count_steps.
  - destruct (decide (j = i)) as [->|Hne].
    + simpl replicate. rewrite run_cons. by apply IH.
    + by apply IH.
  - by apply IH.
Qed.

Lemma alone_sim_received fh name i fs bodies b :
  bodies !! i = Some b ->
  fileHash b = JString fh -> fileName b = JString name ->
  (∀ j b', j ≠ i -> bodies !! j = Some b' ->
     path_component (fileHash b') ≠ Some fh ∧ path_component (fileName b') ≠ Some name) ->
  alone_sim fh name i (received fs bodies) (received fs [b]).
Proof.
  intros Hb Hfh Hname Hothers. split; simpl.
  - exists (Called b). rewrite list_lookup_fmap, Hb. by repeat split.
  - done.
  - intros j t Hj Ht. apply list_lookup_fmap_Some in Ht as (b' & -> & Hb').
    simpl. by apply (Hothers j).
  - by intros ?%elem_of_nil.
Qed.

(** X20: merge calls for other sessions do not disturb a merge call.  When
    the fileHash and fileName of every call in flight are plain names (if
    they are non-empty strings) and no other call names the fileHash or the
    fileName of this one, then in every schedule that gives the call enough
    steps it answers as [merge] does on the disk it started from, and the
    artifact is the one [merge] writes. *)
Theorem merge_beside_other_sessions readdir fs bodies i b fh name :
  bodies !! i = Some b ->
  fileHash b = JString fh -> fileName b = JString name ->
  (∀ j b', bodies !! j = Some b' ->
     plain_field (fileHash b') ∧ plain_field (fileName b')) ->
  (∀ j b', j ≠ i -> bodies !! j = Some b' ->
     path_component (fileHash b') ≠ Some fh ∧ path_component (fileName b') ≠ Some name) ->
  ∃ n, ∀ sched, (n <= count_steps i sched)%nat ->
    let w := run readdir (received fs bodies) sched in
    tasks w !! i = Some (Finished (response (merge readdir b fs)))
    ∧ uploads (w_disk w) !! name = uploads (disk (merge readdir b fs)) !! name.
Proof.
  intros Hb Hfh Hname _ Hothers.
  destruct (merge_runs_alone readdir b fs) as [n Hn]. exists n.
  intros sched Hcount w.
  destruct (alone_sim_run readdir fh name i sched _ _
              (alone_sim_received fh name i fs bodies b Hb Hfh Hname Hothers))
    as [(t & Hi & Ha & _ & _) Huploads _ _].
  fold w in Hi, Huploads.
  replace (count_steps i sched) with (n + (count_steps i sched - n))%nat
    in Ha, Huploads by lia.
  rewrite replicate_add, run_app, Hn, run_alone_finished in Ha, Huploads.
  simpl in Ha, Huploads. injection Ha as <-. done.
Qed.

Lemma merge_beside_other_sessions_witness :
  ∃ n, ∀ sched, (n <= count_steps 0 sched)%nat ->
    let w := run readdir_sorted (received two_session_disk two_session_merges) sched in
    tasks w !! 0%nat
    = Some (Finished (response (merge readdir_sorted (request "H1" "f.bin" (JNumber 4))
                                      two_session_disk)))
    ∧ uploads (w_disk w) !! "f.bin"
      = uploads (disk (merge readdir_sorted (request "H1" "f.bin" (JNumber 4))
                             two_session_disk)) !! "f.bin".
Proof.
  apply (merge_beside_other_sessions readdir_sorted two_session_disk two_session_merges
           0 (request "H1" "f.bin" (JNumber 4)) "H1" "f.bin");
    [reflexivity | reflexivity | reflexivity | | ].
  - intros j b' Hb'. destruct j as [|[|j]]; [| |done].
    + injection Hb' as <-. split; right; reflexivity.
    + injection Hb' as <-. split; right; reflexivity.
  - intros j b' Hj Hb'. destruct j as [|[|j]]; [done| |done].
    injection Hb' as <-. split; discriminate.
Defined.
